(** * pyawstools: the S3 clients and their batch engine

    A shallow embedding of [pyawstools/s3/base_client.py] (class [S3Client])
    and [pyawstools/s3/bucket_client.py] (class [S3BucketClient]).

    - Python calls that touch the outside world (the boto3 client, the
      local file system, [print], [uuid], [time]) run in a state-and-exception
      monad [M] over a [world] that logs every call sent to the store.
    - [_copy_many] and [_download_many] run their items on a
      [concurrent.futures.ThreadPoolExecutor]; they are embedded as a
      transition system whose steps are chosen by a scheduler, so that every
      interleaving of the calling thread and the worker threads is covered. *)

From Stdlib Require Import ZArith Lia Ascii.
From stdpp Require Import base option list strings pretty gmap.

Local Open Scope Z_scope.

(** ** Python values and exceptions *)

Module Py.

(** The subclasses of [Exception] that the code names or can meet. *)
Inductive exn : Type :=
| ClientError (msg : string)        (* botocore.exceptions.ClientError *)
| ValueError (msg : string)
| ZeroDivisionError (msg : string)
| OtherException (cls msg : string).

(** [str(e)], as interpolated by [f"...{e}"]. *)
Definition str (e : exn) : string :=
  match e with
  | ClientError msg | ValueError msg | ZeroDivisionError msg => msg
  | OtherException _ msg => msg
  end.

Inductive outcome (A : Type) : Type :=
| Return (a : A)
| Raise (e : exn).
Arguments Return {A} a.
Arguments Raise {A} e.

Definition raised {A} (o : outcome A) : bool :=
  match o with Return _ => false | Raise _ => true end.

(** Truthiness of an [Optional[str]]: [None] and the empty string are
    falsy. *)
Definition truthy (s : option string) : bool :=
  match s with
  | None => false
  | Some s => negb (bool_decide (s = EmptyString))
  end.

(** [l[lo:hi]] for [0 <= lo]. *)
Definition slice {A} (l : list A) (lo hi : Z) : list A :=
  take (Z.to_nat (hi - lo)) (drop (Z.to_nat lo) l).

(** [math.ceil(a / b)] for [b <> 0], computed exactly ([Z.div] rounds
    down).  Python divides as floats; for list lengths (below 2^53) the
    float quotient rounds to the same integer. *)
Definition ceil_div (a b : Z) : Z := - ((- a) / b).

End Py.

Import Py.

(** ** The object store, as seen through the boto3 client *)

Definition bytes := list Byte.byte.

(** Modelled from the spec: [constants.BaseEnum] is missing from the
    sources; a container reference is an opaque identifier that resolves, by
    a pure and fixed mapping, to a physical bucket name, which the clients
    read as its [value]. *)
Record BaseEnum : Type := { value : string }.

Module S3.

(** One request sent to the store by [self.s3]. *)
Inductive call : Type :=
| copy_object (Bucket Key : string) (CopySource : string * string)
              (MetadataDirective ContentDisposition : option string)
| upload_fileobj (Fileobj : bytes) (Bucket Key : string)
| download_fileobj (Bucket Key : string)
| delete_object (Bucket Key : string)
| head_object (Bucket Key : string)
| get_object (Bucket Key : string)
| list_objects_v2 (Bucket Prefix : string).

(** What the client reads from a response. *)
Inductive response : Type :=
| Empty
| Head (ContentLength : Z)
| Object (Body : bytes)
| Listing (Contents : option (list string)).   (* the [Key]s of ["Contents"] *)

(** The store answers a call, given the calls made before it (newest
    first), with a response or with an exception. *)
Definition client : Type := list call → call → outcome response.

(** The store reports its failures as [ClientError]s, the class that the
    handlers of the clients name. *)
Definition raises_only_ClientError (s3 : client) : Prop :=
  ∀ history c e, s3 history c = Raise e → ∃ msg, e = ClientError msg.

End S3.

Record world : Type := mkWorld {
  calls : list S3.call;           (* requests sent to the store, newest first *)
  stdout : list string;           (* lines printed, newest first *)
  files : gmap string bytes;      (* the local file system *)
  draws : nat;                    (* values drawn from [uuid] and [time] *)
}.

Definition log_call (c : S3.call) (w : world) : world :=
  mkWorld (c :: calls w) (stdout w) (files w) (draws w).
Definition log_line (s : string) (w : world) : world :=
  mkWorld (calls w) (s :: stdout w) (files w) (draws w).
Definition write_file (path : string) (b : bytes) (w : world) : world :=
  mkWorld (calls w) (stdout w) (<[path := b]> (files w)) (draws w).
Definition tick (w : world) : world :=
  mkWorld (calls w) (stdout w) (files w) (S (draws w)).

Definition empty_world : world := mkWorld [] [] ∅ 0%nat.

(** ** The monad of a Python method body *)

Definition M (A : Type) : Type := world → outcome A * world.

Definition ret {A} (a : A) : M A := λ w, (Return a, w).
Definition raise {A} (e : exn) : M A := λ w, (Raise e, w).
Definition bind {A B} (k : A → M B) (m : M A) : M B :=
  λ w, match m w with
       | (Return a, w') => k a w'
       | (Raise e, w') => (Raise e, w')
       end.

(** With these instances a method body reads [x ← m; k] and [m; k]. *)
#[global] Instance M_ret : MRet M := @ret.
#[global] Instance M_bind : MBind M := @bind.

(** [try: body / except ClientError as e: handler e]; every other
    exception passes through. *)
Definition try_except_ClientError {A} (body : M A) (handler : exn → M A) : M A :=
  λ w, match body w with
       | (Raise (ClientError msg), w') => handler (ClientError msg) w'
       | r => r
       end.

Definition print (s : string) : M unit := λ w, (Return tt, log_line s w).

(** [self.s3.<call>(...)]: the request is logged and the store answers. *)
Definition request (s3 : S3.client) (c : S3.call) : M S3.response :=
  λ w, (s3 (calls w) c, log_call c w).

(** [open(path, "rb")] followed by reading the file. *)
Definition open_rb (path : string) : M bytes :=
  λ w, match files w !! path with
       | Some b => (Return b, w)
       | None => (Raise (OtherException "FileNotFoundError" path), w)
       end.

(** [f.write(b)] on a file opened for writing: the body is stored. *)
Definition write (path : string) (b : bytes) : M unit :=
  λ w, (Return tt, write_file path b w).

(** [open(path, "wb")].  The operating system can refuse: the directory
    of the path does not exist ([FileNotFoundError]), the path is a directory
    ([IsADirectoryError]), the process may not write there
    ([PermissionError]).  The world keeps the files, not the directories and
    the permissions, so the answer of the operating system is a parameter:
    [refused path] is the class of the [OSError] that [open] raises, if any.
    When it does not refuse, the file is truncated. *)
Definition open_wb (refused : string → option string) (path : string) : M unit :=
  match refused path with
  | Some cls => raise (OtherException cls path)
  | None => write path []
  end.

(** A [KeyError] when the response lacks the field that is read. *)
Definition key_error {A} (field : string) : M A :=
  raise (OtherException "KeyError" field).

(** The double-quote character of a Python literal. *)
Definition dquote : string := String (ascii_of_nat 34) EmptyString.

(** ** os.path.splitext and the generated key *)

Module Path.

Definition dot : ascii := "."%char.
Definition sep : ascii := "/"%char.
Definition is_dot (c : ascii) : bool := bool_decide (c = dot).

(** [p.rfind(c)]: the last index of [c], or [-1]. *)
Fixpoint rfind_from (c : ascii) (p : list ascii) (i : Z) (found : Z) : Z :=
  match p with
  | [] => found
  | x :: p' => rfind_from c p' (i + 1) (if bool_decide (x = c) then i else found)
  end.
Definition rfind (c : ascii) (p : list ascii) : Z := rfind_from c p 0 (-1).

(** [genericpath._splitext(p, "/", None, ".")[1]]: the extension starts
    at the last dot of the last component, unless that component has only
    leading dots before it. *)
Definition splitext_ext (p : string) : string :=
  let l := String.list_ascii_of_string p in
  let sepIndex := rfind sep l in
  let dotIndex := rfind dot l in
  if bool_decide (sepIndex < dotIndex) then
    if existsb (λ c, negb (is_dot c)) (slice l (sepIndex + 1) dotIndex)
    then String.string_of_list_ascii (drop (Z.to_nat dotIndex) l)
    else EmptyString
  else EmptyString.

(** [s.replace] of every dot by nothing. *)
Definition remove_dots (s : string) : string :=
  String.string_of_list_ascii (filter (λ c, c ≠ dot) (String.list_ascii_of_string s)).

(** *** posixpath.join, dirname and basename *)

Definition startswith (c : ascii) (l : list ascii) : bool :=
  match l with x :: _ => bool_decide (x = c) | [] => false end.
Definition endswith (c : ascii) (l : list ascii) : bool :=
  match last l with Some x => bool_decide (x = c) | None => false end.

(** [l.rstrip(c)] *)
Fixpoint rstrip (c : ascii) (l : list ascii) : list ascii :=
  match l with
  | [] => []
  | x :: l' =>
      match rstrip c l' with
      | [] => if bool_decide (x = c) then [] else [x]
      | r => x :: r
      end
  end.

(** [posixpath.join(a, b)]: an absolute [b] replaces [a]. *)
Definition join (a b : string) : string :=
  if startswith sep (String.list_ascii_of_string b) then b
  else if bool_decide (a = EmptyString) || endswith sep (String.list_ascii_of_string a)
       then a +:+ b
       else a +:+ "/" +:+ b.

(** [posixpath.dirname(p)]: what precedes the last slash, without its
    trailing slashes unless it consists of slashes only. *)
Definition dirname (p : string) : string :=
  let l := String.list_ascii_of_string p in
  let head := take (Z.to_nat (rfind sep l + 1)) l in
  String.string_of_list_ascii
    (if negb (bool_decide (head = [])) && negb (forallb (λ c, bool_decide (c = sep)) head)
     then rstrip sep head else head).

(** [posixpath.basename(p)]: what follows the last slash. *)
Definition basename (p : string) : string :=
  let l := String.list_ascii_of_string p in
  String.string_of_list_ascii (drop (Z.to_nat (rfind sep l + 1)) l).

(** [s[n:]] *)
Definition drop_string (n : nat) (s : string) : string :=
  String.string_of_list_ascii (drop n (String.list_ascii_of_string s)).

End Path.

(** ** concurrent.futures: futures and the thread pool *)

Module Futures.

(** The states of a [Future] that a running pool goes through. *)
Inductive fstate (R : Type) : Type :=
| PENDING
| RUNNING
| FINISHED (r : outcome R).
Arguments PENDING {R}.
Arguments RUNNING {R}.
Arguments FINISHED {R} r.

(** A submitted work item: the arguments of the call and the future
    that will hold its result.  [f_id] is the position of the item in the
    whole request list; it names the task in the trace. *)
Record Future (R : Type) : Type := mkFuture {
  f_id : nat;
  f_args : string * string;
  f_state : fstate R;
}.
Arguments mkFuture {R} f_id f_args f_state.
Arguments f_id {R} f.
Arguments f_args {R} f.
Arguments f_state {R} f.

Definition set_state {R} (s : fstate R) (f : Future R) : Future R :=
  mkFuture (f_id f) (f_args f) s.

(** A [ThreadPoolExecutor]: the FIFO queue of work items (indices of
    futures) and the worker threads, each idle ([None]) or running one
    work item.  [submit] starts a new thread while fewer than
    [max_workers] exist (later CPython versions start one only when no
    worker is idle: fewer threads, same bound). *)
Record ThreadPoolExecutor : Type := mkPool {
  _max_workers : Z;
  _work_queue : list nat;
  _threads : list (option nat);
}.

Definition idle (t : option nat) : bool :=
  match t with None => true | Some _ => false end.

(** Tasks in execution: the busy worker threads. *)
Definition executing (p : ThreadPoolExecutor) : nat :=
  length (filter (λ t, idle t = false) (_threads p)).

(** What [shutdown(wait=True)] waits for: no queued item, no busy thread. *)
Definition drained (p : ThreadPoolExecutor) : bool :=
  bool_decide (_work_queue p = []) && forallb idle (_threads p).

Definition no_pool : ThreadPoolExecutor := mkPool 0 [] [].

Definition enqueue (j : nat) (p : ThreadPoolExecutor) : ThreadPoolExecutor :=
  mkPool (_max_workers p) (_work_queue p ++ [j])
         (if bool_decide (Z.of_nat (length (_threads p)) < _max_workers p)
          then _threads p ++ [None] else _threads p).

End Futures.

Import Futures.

(** ** The batch engine: _copy_many and _download_many *)

Module Engine.

Inductive variant : Type :=
| Copy (batch_size : Z)      (* _copy_many *)
| Download.                  (* _download_many: one pool, no batches *)

(** The control point of the calling thread. *)
Inductive pc : Type :=
| Entry                                        (* before the length check *)
| LoopHead (i : Z)                             (* for i in range(0, len, batch_size) *)
| Submit (i : Z) (todo : list (string * string))    (* the zip loop *)
| AsCompleted (i : Z) (waiting : list nat)     (* futures not yet yielded *)
| Exit (i : Z) (exc : option exn)              (* leaving the with block *)
| Returned
| Raised (e : exn).

(** What an observer of the pool sees. *)
Inductive event : Type :=
| EvPool (i : Z)                               (* a pool is created *)
| EvSubmit (id : nat) (args : string * string)
| EvStart (id : nat) (args : string * string)  (* a worker calls the function *)
| EvFinish (id : nat) (exc : option exn)       (* the call returned or raised *)
| EvShutdown (i : Z)                           (* the pool is joined *)
| EvGc.                                        (* gc.collect() *)

(** What the scheduler picks next: a step of the calling thread, the
    future that [as_completed] yields next, or a step of a worker. *)
Inductive choice : Type :=
| Main
| Yield (j : nat)
| Worker (t : nat).

Section Machine.

Context {R : Type}.
Variable func : string → string → M R.       (* copy_func / download_func *)
Variable v : variant.
Variable source_keys dest_keys : list string. (* keys / local_paths *)
Variable max_workers : Z.

Record state : Type := mkState {
  at_pc : pc;
  pool : ThreadPoolExecutor;
  futures : list (Future R);
  w : world;
  trace : list event;                         (* newest first *)
}.

Definition set_pc (c : pc) (st : state) : state :=
  mkState c (pool st) (futures st) (w st) (trace st).
Definition emit (e : event) (st : state) : state :=
  mkState (at_pc st) (pool st) (futures st) (w st) (e :: trace st).
Definition say (line : string) (st : state) : state :=
  mkState (at_pc st) (pool st) (futures st) (log_line line (w st)) (trace st).

Definition init (w0 : world) : state := mkState Entry no_pool [] w0 [].

Definition len : Z := Z.of_nat (length source_keys).

Definition length_error : exn :=
  match v with
  | Copy _ => ValueError "source_keys and dest_keys must be the same length"
  | Download => ValueError "keys and local_paths must be the same length"
  end.

(** [batch_count = math.ceil(len(source_keys) / batch_size)] *)
Definition batch_count (batch_size : Z) : Z := ceil_div len batch_size.

(** [f"Finished batch copy {int((i/1000) + 1)}/{batch_count}"]; [i] is
    not negative, so [int] rounds down.  Formatting two integers cannot
    raise, so the [except] branch around this [print] is never taken. *)
Definition progress_line (i batch_size : Z) : string :=
  "Finished batch copy " +:+ pretty (i / 1000 + 1) +:+ "/"
    +:+ pretty (batch_count batch_size).

(** [with ThreadPoolExecutor(max_workers=max_workers) as executor:
    futures = []], which raises [ValueError] for [max_workers <= 0]. *)
Definition enter_pool (i : Z) (todo : list (string * string)) (st : state) : state :=
  if bool_decide (max_workers ≤ 0)
  then set_pc (Raised (ValueError "max_workers must be greater than 0")) st
  else mkState (Submit i todo) (mkPool max_workers [] []) [] (w st)
               (EvPool i :: trace st).

(** [futures.append(executor.submit(func, source_key, dest_key))] *)
Definition submit (i : Z) (args : string * string) (todo : list (string * string))
    (st : state) : state :=
  let j := length (futures st) in
  let id := (Z.to_nat i + j)%nat in
  mkState (Submit i todo) (enqueue j (pool st))
          (futures st ++ [mkFuture id args PENDING]) (w st)
          (EvSubmit id args :: trace st).

(** Leaving the [with] block joins the worker threads and the pool is
    gone; then an exception in flight goes on to the caller, and otherwise
    [_copy_many] collects garbage, prints its progress line and takes the
    next [i]. *)
Definition leave (i : Z) (exc : option exn) (st : state) : state :=
  let st := mkState (at_pc st) no_pool (futures st) (w st)
                    (EvShutdown i :: trace st) in
  match exc, v with
  | Some e, _ => set_pc (Raised e) st
  | None, Copy batch_size =>
      set_pc (LoopHead (i + batch_size))
             (say (progress_line i batch_size) (emit EvGc st))
  | None, Download => set_pc Returned st
  end.

Definition main_step (st : state) : option state :=
  match at_pc st with
  | Entry =>
      if bool_decide (length source_keys ≠ length dest_keys)
      then Some (set_pc (Raised length_error) st)
      else match v with
           | Copy batch_size =>
               if bool_decide (batch_size = 0)
               then Some (set_pc (Raised (ZeroDivisionError "division by zero")) st)
               else Some (set_pc (LoopHead 0) st)
           | Download => Some (enter_pool 0 (zip source_keys dest_keys) st)
           end
  | LoopHead i =>
      match v with
      | Copy batch_size =>
          if bool_decide (0 < batch_size ∧ i < len)
          then Some (enter_pool i
                       (zip (slice source_keys i (i + batch_size))
                            (slice dest_keys i (i + batch_size))) st)
          else Some (set_pc Returned st)
      | Download => None
      end
  | Submit i [] => Some (set_pc (AsCompleted i (seq 0 (length (futures st)))) st)
  | Submit i (args :: todo) => Some (submit i args todo st)
  | AsCompleted i [] => Some (set_pc (Exit i None) st)
  | AsCompleted i (_ :: _) => None
  | Exit i exc => if drained (pool st) then Some (leave i exc st) else None
  | Returned | Raised _ => None
  end.

(** [for future in as_completed(futures): future.result()]: a finished
    future that was not yet yielded is yielded.  [_copy_many] wraps
    [future.result()] in [try/except Exception] and prints;
    [_download_many] does not. *)
Definition yield_step (j : nat) (st : state) : option state :=
  match at_pc st with
  | AsCompleted i waiting =>
      if bool_decide (j ∈ waiting) then
        match f_state <$> futures st !! j with
        | Some (FINISHED r) =>
            let waiting' := filter (λ k, k ≠ j) waiting in
            match r, v with
            | Return _, _ => Some (set_pc (AsCompleted i waiting') st)
            | Raise e, Copy _ =>
                Some (set_pc (AsCompleted i waiting')
                        (say ("Error in copying: " +:+ str e) st))
            | Raise e, Download => Some (set_pc (Exit i (Some e)) st)
            end
        | _ => None
        end
      else None
  | _ => None
  end.

Definition exc_of {A} (r : outcome A) : option exn :=
  match r with Return _ => None | Raise e => Some e end.

(** A worker thread: idle, it takes the oldest queued work item and
    starts it; busy, it completes the call and sets the future.  The
    effects of a call on the world are placed at the step that completes
    it. *)
Definition worker_step (t : nat) (st : state) : option state :=
  match _threads (pool st) !! t with
  | Some None =>
      match _work_queue (pool st) with
      | j :: queue =>
          match futures st !! j with
          | Some f =>
              Some (mkState (at_pc st)
                      (mkPool (_max_workers (pool st)) queue
                              (<[t := Some j]> (_threads (pool st))))
                      (<[j := set_state RUNNING f]> (futures st))
                      (w st)
                      (EvStart (f_id f) (f_args f) :: trace st))
          | None => None
          end
      | [] => None
      end
  | Some (Some j) =>
      match futures st !! j with
      | Some f =>
          let '(r, w') := func (f_args f).1 (f_args f).2 (w st) in
          Some (mkState (at_pc st)
                  (mkPool (_max_workers (pool st)) (_work_queue (pool st))
                          (<[t := None]> (_threads (pool st))))
                  (<[j := set_state (FINISHED r) f]> (futures st))
                  w'
                  (EvFinish (f_id f) (exc_of r) :: trace st))
      | None => None
      end
  | None => None
  end.

Definition step (c : choice) (st : state) : option state :=
  match c with
  | Main => main_step st
  | Yield j => yield_step j st
  | Worker t => worker_step t st
  end.

(** Running a schedule; [None] when it picks a step that cannot be
    taken. *)
Fixpoint exec (sched : list choice) (st : state) : option state :=
  match sched with
  | [] => Some st
  | c :: sched' =>
      match step c st with
      | Some st' => exec sched' st'
      | None => None
      end
  end.

Definition terminal (st : state) : bool :=
  match at_pc st with Returned | Raised _ => true | _ => false end.

(** A scheduler that always finds a step when one exists: the calling
    thread first, then a future to yield, then a worker. *)
Definition candidates (st : state) : list choice :=
  Main :: (Yield <$> seq 0 (length (futures st)))
       ++ (Worker <$> seq 0 (length (_threads (pool st)))).

Definition pick (st : state) : option choice :=
  head (filter (λ c, is_Some (step c st)) (candidates st)).

Fixpoint run (fuel : nat) (st : state) : state :=
  match fuel with
  | O => st
  | S fuel' =>
      match pick st with
      | Some c => match step c st with
                  | Some st' => run fuel' st'
                  | None => st
                  end
      | None => st
      end
  end.

(** A bound on the steps that remain. *)
Definition pc_weight (c : pc) (submitted : nat) : Z :=
  match c with
  | Entry => 8 * len + 12
  | LoopHead i => 8 * Z.max 0 (len - i) + 1
  | Submit i todo =>
      4 * Z.of_nat (length todo) + Z.of_nat submitted + 3
      + match v with Copy b => 8 * Z.max 0 (len - (i + b)) + 1 | Download => 0 end
  | AsCompleted i waiting =>
      Z.of_nat (length waiting) + 2
      + match v with Copy b => 8 * Z.max 0 (len - (i + b)) + 1 | Download => 0 end
  | Exit i None =>
      1 + match v with Copy b => 8 * Z.max 0 (len - (i + b)) + 1 | Download => 0 end
  | Exit i (Some _) => 1
  | Returned | Raised _ => 0
  end.

Definition measure (st : state) : Z :=
  pc_weight (at_pc st) (length (futures st))
  + 2 * Z.of_nat (length (_work_queue (pool st)))
  + Z.of_nat (executing (pool st)).

End Machine.

(** *** What the trace shows *)

(** The control points inside a [with ThreadPoolExecutor] block. *)
Definition in_batch (c : pc) : bool :=
  match c with Submit _ _ | AsCompleted _ _ | Exit _ _ => true | _ => false end.

(** Calls started and not yet finished, counted on the trace. *)
Fixpoint in_flight (tr : list event) : Z :=
  match tr with
  | [] => 0
  | EvStart _ _ :: tr => in_flight tr + 1
  | EvFinish _ _ :: tr => in_flight tr - 1
  | _ :: tr => in_flight tr
  end.

(** The submitted items, grouped by the pool they were submitted to;
    newest first at both levels. *)
Fixpoint groups (tr : list event) : list (list (string * string)) :=
  match tr with
  | [] => []
  | EvPool _ :: tr => [] :: groups tr
  | EvSubmit _ a :: tr =>
      match groups tr with
      | [] => [[a]]
      | g :: gs => (a :: g) :: gs
      end
  | _ :: tr => groups tr
  end.

(** The batches of a run, in the order in which they were processed, each
    with its items in the order of submission. *)
Definition batches (tr : list event) : list (list (string * string)) :=
  reverse (reverse <$> groups tr).

(** What a run shows: where the call is, the events of the pool and the
    lines printed, oldest first. *)
Definition outcome_of {R} (o : option (state (R:=R))) :
    option (pc * list event * list string) :=
  match o with
  | Some st => Some (at_pc st, reverse (trace st), reverse (stdout (w st)))
  | None => None
  end.

End Engine.

(** ** class S3Client (base_client.py) *)

Module S3Client.

Section Methods.

(** [self.s3], and the values that [uuid.uuid4().hex] and
    [str(time.time())] give at their n-th draw. *)
Variable s3 : S3.client.
Variable uuid4_hex : nat → string.
Variable time_time : nat → string.
(** The paths that the operating system refuses to open for writing. *)
Variable refused : string → option string.

Definition _get_bucket (generic_bucket_name : BaseEnum) : string :=
  value generic_bucket_name.

Definition _set_dispo_name (bucket_name : BaseEnum) (s3_path dispo_name : string)
  : M (option bool) :=
  let bucket := _get_bucket bucket_name in
  try_except_ClientError
    (request s3 (S3.copy_object bucket s3_path (bucket, s3_path)
                   (Some "REPLACE")
                   (Some ("attachment; filename=" +:+ dquote +:+ dispo_name +:+ dquote)));;
     ret None)
    (λ e, print ("Error setting disposition name: " +:+ str e);;
          ret (Some false)).

Definition gen_s3_path (filename : string) : M string :=
  λ w,
    let unique_uuid := uuid4_hex (draws w) in
    let time_str := time_time (draws w) in
    let filehash := Path.remove_dots (unique_uuid +:+ time_str) in
    let filextension := Path.splitext_ext filename in
    (Return (filehash +:+ filextension), tick w).

Definition _upload_file (bucket_name : BaseEnum) (local_path s3_path : string)
    (dispo_name : option string) : M bool :=
  let bucket := _get_bucket bucket_name in
  try_except_ClientError
    (f ← open_rb local_path;
     request s3 (S3.upload_fileobj f bucket s3_path);;
     (if truthy dispo_name
      then _set_dispo_name bucket_name s3_path (default EmptyString dispo_name);; ret tt
      else ret tt);;
     ret true)
    (λ e, print ("Error uploading file: " +:+ str e);; ret false).

Definition _upload_bytes (bucket_name : BaseEnum) (data : bytes) (s3_path : string)
    (dispo_name : option string) : M bool :=
  let bucket := _get_bucket bucket_name in
  try_except_ClientError
    (request s3 (S3.upload_fileobj data bucket s3_path);;
     (if truthy dispo_name
      then _set_dispo_name bucket_name s3_path (default EmptyString dispo_name);; ret tt
      else ret tt);;
     ret true)
    (λ e, print ("Error uploading bytes: " +:+ str e);; ret false).

(** [open(local_path, "wb")] comes before the store is asked: it raises
    its [OSError], which the handler lets through, or truncates the file; the
    body is written when the store delivers it. *)
Definition _download_file (bucket_name : BaseEnum) (s3_path local_path : string)
  : M bool :=
  let bucket := _get_bucket bucket_name in
  try_except_ClientError
    (open_wb refused local_path;;
     r ← request s3 (S3.download_fileobj bucket s3_path);
     (match r with
      | S3.Object body => write local_path body
      | _ => ret tt
      end);;
     ret true)
    (λ e, print ("Error downloading file: " +:+ str e);; ret false).

Definition _list_keys_of_prefix (bucket_name : BaseEnum) (s3_prefix : string)
  : M (list string) :=
  let bucket := _get_bucket bucket_name in
  try_except_ClientError
    (response ← request s3 (S3.list_objects_v2 bucket s3_prefix);
     match response with
     | S3.Listing contents => ret (default [] contents)
     | _ => ret []
     end)
    (λ e, print ("Error listing keys of prefix: " +:+ str e);; ret []).

Definition _delete_object (bucket_name : BaseEnum) (s3_path : string) : M bool :=
  let bucket := _get_bucket bucket_name in
  try_except_ClientError
    (request s3 (S3.delete_object bucket s3_path);; ret true)
    (λ e, print ("Error deleting object: " +:+ str e);; ret false).

Definition _copy_object (source_bucket : BaseEnum) (source_key : string)
    (dest_bucket : BaseEnum) (dest_key : string) : M bool :=
  let source_bucket := _get_bucket source_bucket in
  let dest_bucket := _get_bucket dest_bucket in
  try_except_ClientError
    (request s3 (S3.copy_object dest_bucket dest_key (source_bucket, source_key)
                   None None);;
     ret true)
    (λ e, print ("Error copying object from " +:+ source_key +:+ " in bucket "
                 +:+ source_bucket +:+ " to target key " +:+ dest_key
                 +:+ " in target bucket " +:+ dest_bucket +:+ ": " +:+ str e);;
          ret false).

Definition _move_object (source_bucket : BaseEnum) (source_key : string)
    (dest_bucket : BaseEnum) (dest_key : string) : M unit :=
  _copy_object source_bucket source_key dest_bucket dest_key;;
  _delete_object source_bucket source_key;;
  ret tt.

Definition _key_exists (bucket_name : BaseEnum) (s3_path : string) : M bool :=
  let bucket := _get_bucket bucket_name in
  try_except_ClientError
    (request s3 (S3.head_object bucket s3_path);; ret true)
    (λ _, ret false).

(** The result is [None] after a [ClientError], the body otherwise. *)
Definition _get_file_obj (bucket_name : BaseEnum) (s3_path : string)
  : M (option bytes) :=
  let bucket := _get_bucket bucket_name in
  try_except_ClientError
    (response ← request s3 (S3.get_object bucket s3_path);
     match response with
     | S3.Object body => ret (Some body)
     | _ => key_error "Body"
     end)
    (λ e, print ("Error downloading bytes: " +:+ str e);; ret None).

(** No [try] here: whatever [head_object] raises leaves the method. *)
Definition _get_size (bucket : BaseEnum) (key : string) : M Z :=
  let bucket := _get_bucket bucket in
  response ← request s3 (S3.head_object bucket key);
  match response with
  | S3.Head content_length => ret content_length
  | _ => key_error "ContentLength"
  end.

(** The two paths that the loop of [_download_prefix] computes for the
    object [key]: the directory it creates,
    [os.path.join(folder_path, os.path.dirname(key[len(s3_prefix):]))], and
    the file it opens for writing,
    [os.path.join(local_dir, os.path.basename(key))]. *)
Definition _download_prefix_local_dir (s3_prefix folder_path key : string) : string :=
  Path.join folder_path (Path.dirname (Path.drop_string (String.length s3_prefix) key)).
Definition _download_prefix_local_path (s3_prefix folder_path key : string) : string :=
  Path.join (_download_prefix_local_dir s3_prefix folder_path key) (Path.basename key).

(** [_copy_many] and [_download_many] under a schedule: the state the
    call is in after the scheduled steps, from the world [w0]. *)
Definition _copy_many {R} (source_keys dest_keys : list string)
    (copy_func : string → string → M R) (max_workers batch_size : Z)
    (sched : list Engine.choice) (w0 : world) : option (Engine.state (R:=R)) :=
  Engine.exec copy_func (Engine.Copy batch_size) source_keys dest_keys max_workers
              sched (Engine.init w0).

Definition _download_many {R} (keys local_paths : list string)
    (download_func : string → string → M R) (max_workers : Z)
    (sched : list Engine.choice) (w0 : world) : option (Engine.state (R:=R)) :=
  Engine.exec download_func Engine.Download keys local_paths max_workers
              sched (Engine.init w0).

End Methods.

(** Defaults of the keyword arguments. *)
Definition default_max_workers : Z := 10.
Definition default_batch_size : Z := 1000.

End S3Client.

(** ** class S3BucketClient (bucket_client.py) *)

Module S3BucketClient.

Import S3Client.

Section Methods.

Variable s3 : S3.client.
Variable uuid4_hex : nat → string.
Variable time_time : nat → string.
Variable refused : string → option string.    (* what [open] refuses *)
Variable _bucket : BaseEnum.                  (* self._bucket *)

(** The result of [_set_dispo_name] is dropped. *)
Definition set_dispo_name (s3_path dispo_name : string) : M unit :=
  _set_dispo_name s3 _bucket s3_path dispo_name;;
  ret tt.

Definition gen_s3_path (filename : string) : M string :=
  λ w,
    let unique_uuid := uuid4_hex (draws w) in
    let time_str := time_time (draws w) in
    let filehash := Path.remove_dots (unique_uuid +:+ time_str) in
    let filextension := Path.splitext_ext filename in
    (Return (filehash +:+ filextension), tick w).

Definition upload_file (local_path : string) (s3_path dispo_name : option string)
  : M string :=
  s3_path ← (if truthy s3_path then ret (default EmptyString s3_path)
             else gen_s3_path local_path);
  _upload_file s3 _bucket local_path s3_path dispo_name;;
  ret s3_path.

Definition upload_bytes (data : bytes) (s3_path : string) (dispo_name : option string)
  : M bool :=
  _upload_bytes s3 _bucket data s3_path dispo_name.

Definition upload_file_obj (data : bytes) (s3_path : string) (dispo_name : option string)
  : M string :=
  _upload_bytes s3 _bucket data s3_path dispo_name;;
  ret s3_path.

(** The result of [_download_file] is dropped. *)
Definition download_file (s3_path local_path : string) : M unit :=
  _download_file s3 refused _bucket s3_path local_path;;
  ret tt.

Definition list_keys_of_prefix (s3_prefix : string) : M (list string) :=
  _list_keys_of_prefix s3 _bucket s3_prefix.

Definition delete_object (s3_path : string) : M bool :=
  _delete_object s3 _bucket s3_path.

Definition move_object (source_key dest_key : string) : M unit :=
  _move_object s3 _bucket source_key _bucket dest_key;;
  delete_object source_key;;
  ret tt.

Definition copy_object (source_key dest_key : string) : M bool :=
  _copy_object s3 _bucket source_key _bucket dest_key.

Definition key_exist (s3_path : string) : M bool :=
  _key_exists s3 _bucket s3_path.

Definition get_file_obj (s3_path : string) : M (option bytes) :=
  _get_file_obj s3 _bucket s3_path.

Definition copy_many (source_keys dest_keys : list string) (max_workers : Z) :=
  let copy_func := copy_object in
  _copy_many source_keys dest_keys copy_func max_workers default_batch_size.

Definition get_size (key : string) : M Z :=
  _get_size s3 _bucket key.

End Methods.

End S3BucketClient.

(** ** Stores, worlds and schedules used as examples *)

Module Examples.
Definition bucket : BaseEnum := {| value := "bucket" |}.
(** A store that answers every call, and one that refuses every call. *)
Definition store_ok : S3.client := λ _ c,
  Return match c with
         | S3.head_object _ _ => S3.Head 42
         | S3.get_object _ _ | S3.download_fileobj _ _ => S3.Object []
         | S3.list_objects_v2 _ _ => S3.Listing None
         | _ => S3.Empty
         end.
Definition store_denied : S3.client := λ _ _, Raise (ClientError "AccessDenied").
Definition uuid4_hex (n : nat) : string := "0f8fad5bd9cb469fa16570867728950e".
Definition time_time (n : nat) : string := "1700000000.25".
Definition disk : world := mkWorld [] [] {[ "report.pdf" := [] ]} 0.
(** A store that accepts uploads and refuses every copy. *)
Definition store_no_copy : S3.client := λ _ c,
  match c with
  | S3.copy_object _ _ _ _ _ => Raise (ClientError "AccessDenied")
  | _ => Return S3.Empty
  end.
(** A disk on which [report.pdf] has content. *)
Definition full_disk : world := mkWorld [] [] {[ "report.pdf" := [Byte.x25; Byte.x50] ]} 0.
(** An operating system that opens every path, and one on which the
    directory [nowhere] does not exist. *)
Definition opens_all : string → option string := λ _, None.
Definition no_such_dir : string → option string := λ path,
  if String.prefix "nowhere/" path then Some "FileNotFoundError" else None.
(** A store that cannot be reached: the client raises an exception that
    is not a [ClientError]. *)
Definition store_unreachable : S3.client := λ _ _,
  Raise (OtherException "EndpointConnectionError" "Could not connect").

End Examples.

Module Scenario.

Import Engine.

(** The example of the specification: three copies in batches of two,
    with two workers. *)
Definition source_keys : list string := ["a/1.txt"; "a/2.txt"; "a/3.txt"].
Definition dest_keys : list string := ["b/1.txt"; "b/2.txt"; "b/3.txt"].
Definition copy_func : string → string → M bool :=
  S3BucketClient.copy_object Examples.store_ok Examples.bucket.

(** Both items of the first batch run at the same time; the second
    finishes first. *)
Definition first_batch : list choice :=
  [Main; Main; Main; Main; Main; Worker 0; Worker 1; Worker 1; Worker 0;
   Yield 1; Yield 0; Main; Main].
Definition schedule : list choice :=
  first_batch ++ [Main; Main; Main; Worker 0; Worker 0; Yield 0; Main; Main; Main].

(** Per-item functions without a handler of their own, on a store that
    has lost the second object. *)
Definition store_missing : S3.client := λ _ c,
  match c with
  | S3.download_fileobj _ "a/2.txt" | S3.copy_object _ _ (_, "a/2.txt") _ _ =>
      Raise (ClientError "NoSuchKey")
  | _ => Return S3.Empty
  end.
Definition raw_copy : string → string → M unit := λ source_key dest_key,
  request store_missing
    (S3.copy_object "bucket" dest_key ("bucket", source_key) None None);;
  mret tt.
Definition raw_download : string → string → M unit := λ key local_path,
  request store_missing (S3.download_fileobj "bucket" key);;
  mret tt.
(** [_download_many]: the second item raises and is yielded while the
    third has not started; leaving the pool waits for the third. *)
Definition download_schedule : list choice :=
  [Main; Main; Main; Main; Main; Worker 0; Worker 1; Worker 0; Worker 1;
   Yield 0; Yield 1; Worker 0; Worker 0; Main].
(** All three items in one batch (the default batch size), on two
    workers: the third item starts when the first has finished. *)
Definition one_batch : list choice :=
  [Main; Main; Main; Main; Main; Main; Worker 0; Worker 1; Worker 0; Worker 0;
   Worker 1; Worker 0; Yield 2; Yield 0; Yield 1; Main; Main; Main].

End Scenario.

(** * The batch engine: invariants and facts *)

Module EngineFacts.

Import Engine.

Section Facts.
Context {R : Type}.
Variable func : string → string → M R.
Variable v : variant.
Variable source_keys dest_keys : list string.
Variable max_workers : Z.

Local Abbreviation step := (step func v source_keys dest_keys max_workers).
Local Abbreviation exec := (exec func v source_keys dest_keys max_workers).
Local Abbreviation measure := (measure v source_keys).
Local Abbreviation len := (len source_keys).
Local Abbreviation pick := (pick func v source_keys dest_keys max_workers).
Local Abbreviation run := (run func v source_keys dest_keys max_workers).
Local Abbreviation worker_step := (worker_step func).
Local Abbreviation main_step := (main_step v source_keys dest_keys max_workers).
Local Abbreviation yield_step := (yield_step v).

(** ** Invariants *)

(** The pool exists exactly inside a [with] block, never has more threads
    than [max_workers], and its busy threads are the calls in flight. *)
Record pool_inv (st : state (R:=R)) : Prop := {
  pool_gone : in_batch (at_pc st) = false → pool st = no_pool;
  pool_cap : in_batch (at_pc st) = true →
             _max_workers (pool st) = max_workers ∧ 0 < max_workers;
  pool_threads : Z.of_nat (length (_threads (pool st))) ≤ Z.max 0 (_max_workers (pool st));
  pool_flight : in_flight (trace st) = Z.of_nat (executing (pool st));
  pool_variant : ∀ i, at_pc st = LoopHead i → v ≠ Download;
}.

(** Every future is queued and pending, or held by exactly one busy
    thread and running, or finished. *)
Record futures_inv (st : state (R:=R)) : Prop := {
  queue_pending : ∀ j, j ∈ _work_queue (pool st) →
    ∃ f, futures st !! j = Some f ∧ f_state f = PENDING;
  queue_nodup : NoDup (_work_queue (pool st));
  busy_running : ∀ t j, _threads (pool st) !! t = Some (Some j) →
    ∃ f, futures st !! j = Some f ∧ f_state f = RUNNING;
  busy_inj : ∀ t t' j, _threads (pool st) !! t = Some (Some j) →
    _threads (pool st) !! t' = Some (Some j) → t = t';
  pending_queued : ∀ j f, futures st !! j = Some f → f_state f = PENDING →
    j ∈ _work_queue (pool st);
  running_busy : ∀ j f, futures st !! j = Some f → f_state f = RUNNING →
    ∃ t, _threads (pool st) !! t = Some (Some j);
  spawned : _work_queue (pool st) ≠ [] → _threads (pool st) ≠ [];
  waiting_valid : ∀ i waiting, at_pc st = AsCompleted i waiting →
    ∀ j, j ∈ waiting → (j < length (futures st))%nat;
}.

(** The requests, and the length of a batch ([_download_many] has one
    batch that holds every request). *)
Definition requests : list (string * string) := zip source_keys dest_keys.

Definition batch_len : Z :=
  match v with Copy b => b | Download => Z.max 1 len end.

(** The first [K] batches of the partition. *)
Definition first_batches (K : nat) : list (list (string * string)) :=
  (λ k : nat, slice requests (Z.of_nat k * batch_len) (Z.of_nat k * batch_len + batch_len)) <$> seq 0 K.

(** Every request before position [n] was started with its own pair of
    keys and has finished. *)
Definition done_upto (n : Z) (tr : list event) : Prop :=
  ∀ (id : nat) a, requests !! id = Some a → Z.of_nat id < n →
    EvStart id a ∈ tr ∧ ∃ exc, EvFinish id exc ∈ tr.

(** The trace records the start and the finish of the futures of the
    current batch. *)
Definition fut_events (futs : list (Future R)) (tr : list event) : Prop :=
  ∀ j f, futs !! j = Some f →
    match f_state f with
    | PENDING => True
    | RUNNING => EvStart (f_id f) (f_args f) ∈ tr
    | FINISHED r =>
        EvStart (f_id f) (f_args f) ∈ tr ∧ EvFinish (f_id f) (exc_of r) ∈ tr
    end.

(** When a task starts, every task of an earlier batch has finished. *)
Fixpoint ordered (tr : list event) : Prop :=
  match tr with
  | [] => True
  | e :: tr =>
      match e with
      | EvStart id' _ =>
          ∀ id : nat, (id < length requests)%nat →
            Z.of_nat id / batch_len < Z.of_nat id' / batch_len →
            ∃ exc, EvFinish id exc ∈ tr
      | _ => True
      end ∧ ordered tr
  end.

(** Inside the [with] block of batch [K], which starts at position [i]. *)
Record in_batch_inv (K : nat) (i : Z) (todo : list (string * string))
    (futs : list (Future R)) (tr : list event) : Prop := {
  ib_index : i = Z.of_nat K * batch_len;
  ib_open : v = Download ∨ i < len;
  ib_first : v = Download → K = 0%nat;
  ib_batches : batches tr = first_batches K ++ [f_args <$> futs];
  ib_todo : (f_args <$> futs) ++ todo = slice requests i (i + batch_len);
  ib_ids : ∀ j f, futs !! j = Some f → f_id f = (Z.to_nat i + j)%nat;
  ib_done : done_upto i tr;
  ib_events : fut_events futs tr;
}.

(** What holds at each control point. *)
Definition pc_inv (st : state (R:=R)) : Prop :=
  match at_pc st with
  | Entry => trace st = []
  | LoopHead i =>
      ∃ K : nat, i = Z.of_nat K * batch_len ∧ batches (trace st) = first_batches K
        ∧ (K = 0%nat ∨ (Z.of_nat K - 1) * batch_len < len)
        ∧ done_upto i (trace st)
  | Submit i todo => ∃ K, in_batch_inv K i todo (futures st) (trace st)
  | AsCompleted i _ => ∃ K, in_batch_inv K i [] (futures st) (trace st)
  | Exit i exc =>
      (∃ K, in_batch_inv K i [] (futures st) (trace st))
      ∧ (∀ e, exc = Some e → v = Download ∧ ∃ id, EvFinish id (Some e) ∈ trace st)
  | Returned =>
      done_upto len (trace st)
      ∧ ∃ K : nat, batches (trace st) = first_batches K ∧ len ≤ Z.of_nat K * batch_len
          ∧ match v with
            | Copy _ => K = 0%nat ∨ (Z.of_nat K - 1) * batch_len < len
            | Download => K = 1%nat
            end
  | Raised e =>
      v = Download ∧ done_upto len (trace st) ∧ batches (trace st) = first_batches 1
      ∧ ∃ id, EvFinish id (Some e) ∈ trace st
  end.

Record batch_inv (st : state (R:=R)) : Prop := {
  bi_pc : pc_inv st;
  bi_ordered : ordered (trace st);
}.

(** Every call that the trace reports as finished was a call of [func]
    on the keys of the request at that position, and the trace reports how
    it ended. *)
Definition finish_sound (tr : list event) : Prop :=
  ∀ id exc, EvFinish id exc ∈ tr →
    ∃ a w1, requests !! id = Some a ∧ exc_of (func a.1 a.2 w1).1 = exc.

(** The arguments of the calls of the current batch that have finished. *)
Definition finished_args (futs : list (Future R)) : list (string * string) :=
  omap (λ f, match f_state f with FINISHED _ => Some (f_args f) | _ => None end) futs.

(** When every call of [func] sends the one request [req] to the store,
    the store has received, in some order, the requests of the batches
    before the current one and of the calls that have finished in the
    current one, after the calls [sent_before] the batch operation. *)
Definition sent (req : string → string → S3.call) (sent_before : list S3.call)
    (st : state (R:=R)) : Prop :=
  let of_args := fmap (M:=list) (λ a : string * string, req a.1 a.2) in
  match at_pc st with
  | Entry => calls (w st) = sent_before
  | LoopHead i =>
      calls (w st) ≡ₚ of_args (take (Z.to_nat i) requests) ++ sent_before
  | Submit i _ | AsCompleted i _ | Exit i _ =>
      calls (w st) ≡ₚ of_args (finished_args (futures st))
                       ++ of_args (take (Z.to_nat i) requests) ++ sent_before
  | Returned | Raised _ => calls (w st) ≡ₚ of_args requests ++ sent_before
  end.

(** No pool was created and no work was dispatched: the call has had no
    effect on the world [w1] it started in. *)
Definition untouched (w1 : world) (st : state (R:=R)) : Prop :=
  in_batch (at_pc st) = false ∧ pool st = no_pool ∧ futures st = []
  ∧ trace st = [] ∧ w st = w1.

(** The progress lines of [_copy_many] among the lines printed, and the
    lines that the first [K] batches print, newest first. *)
Definition is_progress_line (line : string) : bool :=
  String.prefix "Finished batch copy " line.

Definition progress_lines (K : nat) : list string :=
  (λ k : nat, progress_line source_keys (Z.of_nat k * batch_len) batch_len)
    <$> reverse (seq 0 K).

(** [_copy_many] has printed one progress line for every batch that it
    has left, after the progress lines [lines_before] that were there when it
    was called. *)
Definition printed (lines_before : list string) (st : state (R:=R)) : Prop :=
  match v with
  | Download => True
  | Copy _ =>
      let shown := filter (λ line, is_progress_line line = true) (stdout (w st)) in
      match at_pc st with
      | Entry => shown = lines_before
      | LoopHead i | Submit i _ | AsCompleted i _ | Exit i _ =>
          shown = progress_lines (Z.to_nat (i / batch_len)) ++ lines_before
      | Returned =>
          shown = progress_lines (Z.to_nat (ceil_div len batch_len)) ++ lines_before
      | Raised _ => True
      end
  end.

(** ** Facts *)

Lemma executing_start (l : list (option nat)) t j :
  l !! t = Some None →
  length (filter (λ t, idle t = false) (<[t := Some j]> l))
  = S (length (filter (λ t, idle t = false) l)).
Proof.
  revert t. induction l as [|x l IH]; intros [|t] Ht; simplify_eq/=.
  - rewrite !filter_cons. repeat case_decide; simplify_eq/=; done.
  - rewrite !filter_cons. specialize (IH _ Ht).
    destruct x; simpl; repeat case_decide; simplify_eq/=; lia.
Qed.

Lemma executing_finish (l : list (option nat)) t j :
  l !! t = Some (Some j) →
  S (length (filter (λ t, idle t = false) (<[t := None]> l)))
  = length (filter (λ t, idle t = false) l).
Proof.
  revert t. induction l as [|x l IH]; intros [|t] Ht; simplify_eq/=.
  - rewrite !filter_cons. repeat case_decide; simplify_eq/=; done.
  - rewrite !filter_cons. specialize (IH _ Ht).
    destruct x; simpl; repeat case_decide; simplify_eq/=; lia.
Qed.

Lemma executing_spawn (l : list (option nat)) :
  length (filter (λ t, idle t = false) (l ++ [None]))
  = length (filter (λ t, idle t = false) l).
Proof.
  rewrite filter_app, length_app, filter_cons. case_decide; simplify_eq/=. lia.
Qed.

Lemma drained_executing p : drained p = true → executing p = 0%nat.
Proof.
  unfold drained, executing. intros [_ H]%andb_prop. destruct p as [mw q ths]; simpl in *.
  induction ths as [|x ths IH]; [done|]. simpl in H. apply andb_prop in H as [Hx H].
  rewrite filter_cons. case_decide; [congruence|auto].
Qed.

Lemma executing_le (l : list (option nat)) :
  (length (filter (λ t, idle t = false) l) ≤ length l)%nat.
Proof. apply length_filter. Qed.

Lemma length_remove (j : nat) (l : list nat) :
  j ∈ l → (length (filter (λ k, k ≠ j) l) < length l)%nat.
Proof.
  induction l as [|x l IH]; intros Hin; [by apply elem_of_nil in Hin|].
  rewrite filter_cons. case_decide; simpl.
  - apply elem_of_cons in Hin as [->|Hin]; [done|]. specialize (IH Hin). lia.
  - pose proof (length_filter (λ k, k ≠ j) l). lia.
Qed.

(** Unfolds the measure of explicit states and leaves linear arithmetic. *)
Ltac weigh :=
  unfold Engine.measure, executing in *; simpl in *;
  unfold Engine.len in *;
  rewrite ?length_insert, ?length_app, ?length_seq, ?length_zip_with,
    ?executing_spawn in *;
  simpl in *; repeat case_match; lia.

(** Splits [step c st = Some st'] into its cases, with [st] and [st']
    spelled out. *)
Ltac step_cases Hs :=
  match type of Hs with
  | Engine.step _ _ _ _ _ ?c ?st = Some _ =>
      destruct st as [p [mw q ths] futs w0 tr];
      destruct c as [|j|t]; simpl in Hs;
      [ unfold main_step in Hs; simpl in Hs;
        destruct p as [|i|i [|a todo]|i [|k waiting]|i exc| |]
      | unfold yield_step in Hs; simpl in Hs;
        destruct p as [|i|i todo|i waiting|i exc| |]
      | unfold worker_step in Hs; simpl in Hs ];
      unfold enter_pool, submit, leave, set_pc, say, emit in Hs; simpl in Hs;
      simplify_eq/=;
      repeat (first [ case_bool_decide | case_match ]; simplify_eq/=)
  end.

Lemma exec_app s1 s2 (st : state (R:=R)) :
  exec (s1 ++ s2) st = match exec s1 st with Some st' => exec s2 st' | None => None end.
Proof.
  revert st. induction s1 as [|c s1 IH]; intros st; simpl; [done|].
  destruct (step c st); [apply IH|done].
Qed.

Lemma exec_invariant (P : state (R:=R) → Prop) :
  (∀ c st st', P st → step c st = Some st' → P st') →
  ∀ sched st st', P st → exec sched st = Some st' → P st'.
Proof.
  intros Hstep sched. induction sched as [|c sched IH]; intros st st' HP He; simpl in He.
  - by simplify_eq.
  - destruct (step c st) as [st1|] eqn:Hs; [|done]. eauto.
Qed.

Lemma length_batch (i b : Z) :
  0 < b →
  Z.of_nat (length (zip (slice source_keys i (i + b)) (slice dest_keys i (i + b)))) ≤ b
  ∧ Z.of_nat (length (zip (slice source_keys i (i + b)) (slice dest_keys i (i + b))))
    ≤ Z.max 0 (len - Z.max 0 i).
Proof.
  intros Hb. unfold slice, Engine.len. rewrite length_zip_with, !length_take, !length_drop. lia.
Qed.

Lemma measure_nonneg (st : state (R:=R)) : 0 ≤ measure st.
Proof.
  unfold Engine.measure, pc_weight, Engine.len. destruct (at_pc st) as [| | | | ? [?|] | |], v; lia.
Qed.

Lemma step_decreases c (st st' : state (R:=R)) :
  step c st = Some st' → measure st' < measure st.
Proof.
  destruct st as [p [mw q ths] futs w0 tr].
  pose proof (executing_le ths) as Hexe.
  destruct c as [|j|t]; simpl; intros Hs.
  - unfold main_step in Hs; simpl in Hs.
    destruct p as [|i|i [|a todo]|i [|k waiting]|i exc| |]; simplify_eq/=.
    + (* Entry *)
      case_bool_decide; simplify_eq/=; [weigh|].
      destruct v as [b|]; [case_bool_decide; simplify_eq/=; weigh|].
      simplify_eq/=. unfold enter_pool. case_bool_decide; weigh.
    + (* LoopHead *)
      destruct v as [b|]; [|done].
      case_bool_decide as Hc; simplify_eq/=; [|weigh].
      destruct Hc as [Hb Hi]. pose proof (length_batch i b Hb) as [H1 H2].
      unfold enter_pool. case_bool_decide; weigh.
    + weigh.
    + unfold submit, enqueue; simpl. case_bool_decide; weigh.
    + weigh.
    + destruct (drained _); simplify_eq/=.
      unfold leave; simpl. destruct exc, v; weigh.
  - unfold yield_step in Hs; simpl in Hs.
    destruct p as [|i|i todo|i waiting|i exc| |]; simplify_eq/=.
    case_bool_decide as Hin; [|done]. apply length_remove in Hin.
    destruct (futs !! j) as [[id a [| |[r|e]]]|]; simplify_eq/=; [weigh|].
    destruct v; simplify_eq/=; weigh.
  - unfold worker_step in Hs; simpl in Hs.
    destruct (ths !! t) as [[j|]|] eqn:Ht; simplify_eq/=.
    + destruct (futs !! j) as [f|]; simplify_eq/=.
      destruct (func _ _ _) as [r w']. simplify_eq/=.
      pose proof (executing_finish ths t j Ht). weigh.
    + destruct q as [|j q]; simplify_eq/=.
      destruct (futs !! j) as [f|]; simplify_eq/=.
      pose proof (executing_start ths t j Ht). weigh.
Qed.

Lemma pool_inv_init w0 : pool_inv (init w0).
Proof. split; simpl; done. Qed.

Lemma pool_inv_step c st st' : pool_inv st → step c st = Some st' → pool_inv st'.
Proof.
  intros [Hgone Hcap Hths Hfl Hvar] Hs. step_cases Hs; simpl in *.
  all: try (split; simpl; try done; try (intros _; split; lia); try lia;
            try congruence; fail).
  all: try match goal with
           | H : drained _ = true |- _ =>
               apply drained_executing in H; split; simpl; try done; try congruence;
               by rewrite Hfl, H
           end.
  all: try match goal with
           | H : ?ths !! ?t = Some (Some ?n) |- _ =>
               pose proof (executing_finish ths t n H)
           | H : ?ths !! ?t = Some None |- _ =>
               pose proof (executing_start ths t n H)
           end.
  all: try (split; simpl; rewrite ?length_insert; auto;
            unfold executing in *; simpl in *; try lia;
            intros Hp; specialize (Hgone Hp); unfold no_pool in Hgone;
            by simplify_eq/=).
  - specialize (Hgone eq_refl). unfold no_pool in Hgone. simplify_eq.
    split; unfold executing in *; simpl in *; try done; try lia.
  - specialize (Hgone eq_refl). unfold no_pool in Hgone. simplify_eq.
    split; unfold executing in *; simpl in *; try done; try lia.
  - destruct (Hcap eq_refl) as [-> Hmw].
    split; simpl; try done; unfold enqueue, executing in *; simpl in *;
      case_bool_decide; simpl; rewrite ?length_app, ?executing_spawn; simpl;
      try done; lia.
Qed.

Lemma pool_inv_reachable sched w0 st :
  exec sched (init w0) = Some st → pool_inv st.
Proof. apply exec_invariant; [apply pool_inv_step|apply pool_inv_init]. Qed.

Lemma futures_inv_fresh c mw w0 tr :
  (∀ i waiting, c ≠ AsCompleted i waiting) →
  futures_inv (mkState c (mkPool mw [] []) [] w0 tr).
Proof.
  intros Hc. split; simpl; try done.
  - intros j Hj. by apply elem_of_nil in Hj.
  - constructor.
  - intros i waiting ->. by destruct (Hc i waiting).
Qed.

Lemma futures_inv_init w0 : futures_inv (init w0).
Proof. by apply futures_inv_fresh. Qed.

Lemma drained_queue p : drained p = true → _work_queue p = [].
Proof. unfold drained. intros [H _]%andb_prop. by apply bool_decide_eq_true in H. Qed.

Lemma drained_idle p t j : drained p = true → _threads p !! t ≠ Some (Some j).
Proof.
  unfold drained. intros [_ H]%andb_prop Ht.
  rewrite forallb_forall in H. specialize (H (Some j)). simpl in H.
  assert (false = true); [|done]. apply H. apply list_elem_of_In.
  by eapply list_elem_of_lookup_2.
Qed.

Lemma futures_inv_leave c st w1 tr' :
  drained (pool st) = true →
  (∀ i waiting, c ≠ AsCompleted i waiting) →
  futures_inv st →
  futures_inv (mkState c no_pool (futures st) w1 tr').
Proof.
  intros Hd Hc [Hqp Hnd Hbr Hbi Hpq Hrb Hsp Hwv]; simpl in *.
  set (p := pool st) in *.
  split; simpl; try done.
  - intros j Hj. by apply elem_of_nil in Hj.
  - constructor.
  - intros j f Hj Hf. specialize (Hpq j f Hj Hf). by rewrite (drained_queue p Hd) in Hpq.
  - intros j f Hj Hf. destruct (Hrb j f Hj Hf) as [t Ht]. by destruct (drained_idle p t j Hd).
  - intros i waiting ->. by destruct (Hc i waiting).
Qed.

Lemma futures_inv_step c st st' :
  pool_inv st → futures_inv st → step c st = Some st' → futures_inv st'.
Proof.
  intros HP HF Hs. pose proof HF as [Hqp Hnd Hbr Hbi Hpq Hrb Hsp Hwv].
  step_cases Hs; simpl in *.
  all: try (split; simpl; try done; fail).
  all: try (by apply futures_inv_fresh).
  all: try match goal with
           | H : drained _ = true |- _ =>
               by eapply (futures_inv_leave _ (mkState _ _ _ _ _) _ _ H)
           end.
  all: try (split; simpl; try done;
            intros ? ? [= <- <-] j' Hj'; apply elem_of_seq in Hj'; lia).
  all: try (split; simpl; try done;
            intros ? ? [= <- <-] j' [_ Hj']%list_elem_of_filter; eauto; fail).
  - (* submit *)
    destruct HP as [_ Hcap _ _ _]. destruct (Hcap eq_refl) as [Hmw Hpos]; simpl in *. subst mw.
    assert (Hlt : ∀ j, j ∈ q → (j < length futs)%nat).
    { intros j Hj. destruct (Hqp j Hj) as (f & Hf & _). by eapply lookup_lt_Some. }
    split; simpl.
    + intros j [Hj| ->%list_elem_of_singleton]%elem_of_app.
      * destruct (Hqp j Hj) as (f & Hf & Hst). exists f. split; [|done].
        by apply lookup_app_l_Some.
      * eexists. split; [rewrite lookup_app_r, Nat.sub_diag; [done|lia]|done].
    + apply NoDup_app. split_and!; [done| |apply NoDup_singleton].
      intros j Hj ->%list_elem_of_singleton. specialize (Hlt _ Hj). lia.
    + intros t j Ht.
      assert (ths !! t = Some (Some j)) as Ht'.
      { case_bool_decide; [|done]. apply lookup_app_Some in Ht as [Ht|[_ Ht]]; [done|].
        by destruct (t - length ths)%nat. }
      destruct (Hbr t j Ht') as (f & Hf & Hst). exists f. split; [|done].
      by apply lookup_app_l_Some.
    + assert (∀ t j, (if bool_decide (Z.of_nat (length ths) < max_workers)
                      then ths ++ [None] else ths) !! t = Some (Some j) →
                     ths !! t = Some (Some j)) as Hold.
      { intros t j Ht. case_bool_decide; [|done].
        apply lookup_app_Some in Ht as [Ht|[_ Ht]]; [done|].
        by destruct (t - length ths)%nat. }
      intros t t' j Ht Ht'. eauto.
    + intros j f [Hj|[Hlen Hj]]%lookup_app_Some Hst.
      * apply elem_of_app. left. eauto.
      * apply elem_of_app. right. apply list_elem_of_singleton.
        apply lookup_lt_Some in Hj. simpl in Hj. lia.
    + intros j f [Hj|[Hlen Hj]]%lookup_app_Some Hst.
      * destruct (Hrb j f Hj Hst) as [t Ht]. exists t.
        case_bool_decide; [|done]. by apply lookup_app_l_Some.
      * destruct (j - length futs)%nat; simplify_eq/=.
    + intros _. case_bool_decide; [by destruct ths|].
      destruct ths; [simpl in *; lia|done].
    + done.
  - (* a worker finishes future n *)
    match goal with Ha : ths !! t = Some (Some _) |- _ => rename Ha into H end.
    assert (Hn : (n < length futs)%nat) by by eapply lookup_lt_Some.
    destruct (Hbr t n H) as (f' & Hf' & Hrun). simplify_eq.
    split; simpl.
    + intros j Hj. destruct (Hqp j Hj) as (f' & Hf' & Hst).
      exists f'. split; [|done]. rewrite list_lookup_insert_ne; [done|].
      intros ->. simplify_eq. congruence.
    + done.
    + intros t' j Ht'. destruct (decide (t = t')) as [->|Hne].
      { rewrite list_lookup_insert_eq in Ht'; [done|]. by eapply lookup_lt_Some. }
      rewrite list_lookup_insert_ne in Ht' by done.
      destruct (Hbr t' j Ht') as (f' & Hf' & Hst). exists f'. split; [|done].
      rewrite list_lookup_insert_ne; [done|]. intros ->. by destruct Hne; eauto.
    + intros t1 t2 j Ht1 Ht2.
      destruct (decide (t = t1)) as [->|Hne1].
      { rewrite list_lookup_insert_eq in Ht1; [done|]. by eapply lookup_lt_Some. }
      destruct (decide (t = t2)) as [->|Hne2].
      { rewrite list_lookup_insert_eq in Ht2; [done|]. by eapply lookup_lt_Some. }
      rewrite list_lookup_insert_ne in Ht1, Ht2 by done. eauto.
    + intros j f' Hj Hst. destruct (decide (n = j)) as [->|Hne].
      { rewrite list_lookup_insert_eq in Hj by done. by simplify_eq/=. }
      rewrite list_lookup_insert_ne in Hj by done. eauto.
    + intros j f' Hj Hst. destruct (decide (n = j)) as [->|Hne].
      { rewrite list_lookup_insert_eq in Hj by done. by simplify_eq/=. }
      rewrite list_lookup_insert_ne in Hj by done.
      destruct (Hrb j f' Hj Hst) as [t' Ht']. exists t'.
      rewrite list_lookup_insert_ne; [done|]. intros ->. simplify_eq.
    + intros Hq. specialize (Hsp Hq). intros Hnil. apply Hsp.
      apply (f_equal length) in Hnil. rewrite length_insert in Hnil. by destruct ths.
    + intros i waiting -> j Hj. rewrite length_insert. eauto.
  - (* a worker starts future n *)
    match goal with Ha : ths !! t = Some None |- _ => rename Ha into H end.
    assert (Hn : (n < length futs)%nat) by by eapply lookup_lt_Some.
    assert (Ht : (t < length ths)%nat) by by eapply lookup_lt_Some.
    destruct (Hqp n) as (f' & Hf' & Hpend); [left|]. simplify_eq.
    apply NoDup_cons in Hnd as [Hnotin Hnd].
    split; simpl.
    + intros j Hj. destruct (Hqp j) as (f' & Hf' & Hst); [by right|].
      exists f'. split; [|done]. rewrite list_lookup_insert_ne; [done|].
      by intros ->.
    + done.
    + intros t' j Ht'. destruct (decide (t = t')) as [->|Hne].
      { rewrite list_lookup_insert_eq in Ht' by done. simplify_eq.
        eexists. split; [by apply list_lookup_insert_eq|done]. }
      rewrite list_lookup_insert_ne in Ht' by done.
      destruct (Hbr t' j Ht') as (f' & Hf' & Hst). exists f'. split; [|done].
      rewrite list_lookup_insert_ne; [done|]. intros ->. simplify_eq. congruence.
    + assert (∀ t', ths !! t' ≠ Some (Some n)) as Hfree.
      { intros t' Ht'. destruct (Hbr t' n Ht') as (f' & Hf' & Hst). simplify_eq. congruence. }
      intros t1 t2 j Ht1 Ht2.
      destruct (decide (t = t1)) as [<-|Hne1]; destruct (decide (t = t2)) as [<-|Hne2];
        try done.
      * rewrite list_lookup_insert_eq in Ht1 by done. simplify_eq.
        rewrite list_lookup_insert_ne in Ht2 by done. by destruct (Hfree t2).
      * rewrite list_lookup_insert_eq in Ht2 by done. simplify_eq.
        rewrite list_lookup_insert_ne in Ht1 by done. by destruct (Hfree t1).
      * rewrite list_lookup_insert_ne in Ht1, Ht2 by done. eauto.
    + intros j f' Hj Hst. destruct (decide (n = j)) as [->|Hne].
      { rewrite list_lookup_insert_eq in Hj by done. by simplify_eq/=. }
      rewrite list_lookup_insert_ne in Hj by done.
      specialize (Hpq j f' Hj Hst). apply elem_of_cons in Hpq as [->|]; done.
    + intros j f' Hj Hst. destruct (decide (n = j)) as [->|Hne].
      { exists t. by rewrite list_lookup_insert_eq. }
      rewrite list_lookup_insert_ne in Hj by done.
      destruct (Hrb j f' Hj Hst) as [t' Ht']. exists t'.
      rewrite list_lookup_insert_ne; [done|]. intros ->. simplify_eq.
    + intros _ Hnil. apply (f_equal length) in Hnil. rewrite length_insert in Hnil.
      destruct ths; simpl in *; [lia|done].
    + intros i waiting -> j Hj. rewrite length_insert. eauto.
Qed.

Lemma worker_can_step (st : state (R:=R)) :
  futures_inv st →
  (drained (pool st) = false) →
  ∃ t st', (t < length (_threads (pool st)))%nat ∧ worker_step t st = Some st'.
Proof.
  intros [Hqp Hnd Hbr Hbi Hpq Hrb Hsp Hwv] Hd.
  destruct st as [p [mw q ths] futs w0 tr]; simpl in *.
  assert (Hbusy : ∀ t j, ths !! t = Some (Some j) →
    ∃ st', worker_step t (mkState p (mkPool mw q ths) futs w0 tr) = Some st').
  { intros t j Ht. destruct (Hbr t j Ht) as (f & Hf & _).
    unfold Engine.worker_step; simpl. rewrite Ht, Hf.
    destruct (func _ _ _); eauto. }
  unfold drained in Hd; simpl in Hd. apply andb_false_iff in Hd as [Hd|Hd].
  - apply bool_decide_eq_false in Hd. destruct q as [|j q]; [done|].
    destruct ths as [|[j'|] ths']; [by destruct Hsp| |].
    + destruct (Hbusy 0%nat j' eq_refl) as [st' Hst']. exists 0%nat, st'. simpl. split; [lia|done].
    + destruct (Hqp j) as (f & Hf & _); [left|].
      exists 0%nat. unfold Engine.worker_step; simpl. rewrite Hf. eexists. split; [lia|done].
  - assert (∃ t j, ths !! t = Some (Some j)) as (t & j & Ht).
    { clear -Hd. induction ths as [|[j|] ths IH]; simpl in *; [done| |].
      - by exists 0%nat, j.
      - destruct (IH Hd) as (t & j & Ht). by exists (S t), j. }
    destruct (Hbusy t j Ht) as [st' Hst']. exists t, st'. split; [|done].
    by eapply lookup_lt_Some.
Qed.

Lemma progress (st : state (R:=R)) :
  pool_inv st → futures_inv st → terminal st = false →
  ∃ c st', c ∈ candidates st ∧ step c st = Some st'.
Proof.
  intros HP HF Hterm.
  assert (Hworker : drained (pool st) = false →
    ∃ c st', c ∈ candidates st ∧ step c st = Some st').
  { intros Hd. destruct (worker_can_step st HF Hd) as (t & st' & Ht & Hst').
    exists (Worker t), st'. split; [|done]. unfold candidates.
    apply elem_of_cons. right. apply elem_of_app. right.
    apply list_elem_of_fmap. exists t. split; [done|]. apply elem_of_seq. lia. }
  assert (Hmain : ∀ st', main_step st = Some st' →
    ∃ c st', c ∈ candidates st ∧ step c st = Some st').
  { intros st' Hst'. exists Main, st'. split; [left|done]. }
  destruct HP as [Hgone Hcap Hths Hfl Hv].
  pose proof HF as [Hqp Hnd Hbr Hbi Hpq Hrb Hsp Hwv].
  destruct st as [p [mw q ths] futs w0 tr]; simpl in *.
  unfold terminal in Hterm; simpl in Hterm.
  destruct p as [|i|i [|a todo]|i [|j waiting]|i exc| |]; try done.
  - unfold Engine.main_step in Hmain; simpl in Hmain.
    repeat (case_bool_decide || case_match); eauto.
  - specialize (Hv i eq_refl). unfold Engine.main_step in Hmain; simpl in Hmain.
    destruct v; [|done]. case_bool_decide; eauto.
  - eauto.
  - eauto.
  - eauto.
  - assert (Hj : (j < length futs)%nat) by (eapply Hwv; [done|left]).
    apply lookup_lt_is_Some_2 in Hj as [f Hf].
    destruct (f_state f) as [| |r] eqn:Hst.
    + apply Hworker. unfold drained; simpl. specialize (Hpq j f Hf Hst).
      destruct q; [by apply elem_of_nil in Hpq|done].
    + apply Hworker. destruct (Hrb j f Hf Hst) as [t Ht].
      destruct (drained _) eqn:Hd; [|done]. by destruct (drained_idle _ t j Hd).
    + assert (∃ st', yield_step j (mkState (AsCompleted i (j :: waiting))
                (mkPool mw q ths) futs w0 tr) = Some st') as [st' Hst'].
      { unfold Engine.yield_step; simpl. rewrite bool_decide_eq_true_2 by left.
        rewrite Hf; simpl. rewrite Hst. destruct r, v; eauto. }
      exists (Yield j), st'. split; [|done]. unfold candidates; simpl.
      apply elem_of_cons. right. apply elem_of_app. left.
      apply list_elem_of_fmap. exists j. split; [done|]. apply elem_of_seq.
      apply lookup_lt_Some in Hf. lia.
  - destruct (drained (mkPool mw q ths)) eqn:Hd; [|by apply Hworker].
    apply (Hmain (leave v source_keys i exc (mkState (Exit i exc) (mkPool mw q ths) futs w0 tr))).
    unfold Engine.main_step; simpl. by rewrite Hd.
Qed.

Lemma pick_progress (st : state (R:=R)) :
  pool_inv st → futures_inv st → terminal st = false →
  ∃ c st', pick st = Some c ∧ step c st = Some st'.
Proof.
  intros HP HF Hterm. destruct (progress st HP HF Hterm) as (c & st' & Hc & Hst').
  unfold Engine.pick.
  destruct (filter _ (candidates st)) as [|c' l] eqn:Hfil.
  - assert (c ∈ filter (λ c, is_Some (step c st)) (candidates st)) as Hin.
    { apply list_elem_of_filter. split; [by eexists|done]. }
    rewrite Hfil in Hin. by apply elem_of_nil in Hin.
  - assert (c' ∈ filter (λ c, is_Some (step c st)) (candidates st)) as Hin.
    { rewrite Hfil. left. }
    apply list_elem_of_filter in Hin as [[st'' Hst''] _]. exists c', st''. done.
Qed.

Lemma pick_terminal (st : state (R:=R)) :
  pool_inv st → terminal st = true → run 1 st = st ∧ ∀ fuel, run fuel st = st.
Proof.
  intros [Hgone _ _ _ _] Hterm.
  assert (pick st = None) as Hp.
  { unfold Engine.pick, candidates. destruct st as [p pl futs w0 tr]; simpl in *.
    unfold terminal in Hterm; simpl in Hterm.
    assert (pl = no_pool) as -> by (apply Hgone; by destruct p).
    simpl. rewrite app_nil_r.
    destruct (filter _ _) as [|c l] eqn:Hfil; [done|].
    assert (c ∈ filter (λ c, is_Some (step c (mkState p no_pool futs w0 tr)))
              (Main :: (Yield <$> seq 0 (length futs)))) as Hin.
    { rewrite Hfil. left. }
    apply list_elem_of_filter in Hin as [[st' Hst'] Hc].
    apply elem_of_cons in Hc as [->|Hc].
    - simpl in Hst'. unfold Engine.main_step in Hst'; simpl in Hst'. by destruct p.
    - apply list_elem_of_fmap in Hc as (j & -> & _). simpl in Hst'.
      unfold Engine.yield_step in Hst'; simpl in Hst'. by destruct p. }
  split; [simpl; by rewrite Hp|]. intros [|fuel]; [done|]. simpl. by rewrite Hp.
Qed.

Lemma run_terminates fuel (st : state (R:=R)) :
  pool_inv st → futures_inv st → measure st ≤ Z.of_nat fuel →
  terminal (run fuel st) = true.
Proof.
  revert st. induction fuel as [|fuel IH]; intros st HP HF Hm.
  - destruct (terminal st) eqn:Hterm; [done|].
    destruct (progress st HP HF Hterm) as (c & st' & _ & Hst').
    pose proof (step_decreases c st st' Hst'). pose proof (measure_nonneg st'). lia.
  - destruct (terminal st) eqn:Hterm.
    { destruct (pick_terminal st HP Hterm) as [_ ->]. done. }
    destruct (pick_progress st HP HF Hterm) as (c & st' & Hc & Hst').
    simpl. rewrite Hc, Hst'. apply IH.
    + by eapply pool_inv_step.
    + by eapply futures_inv_step.
    + pose proof (step_decreases c st st' Hst'). lia.
Qed.

Lemma run_exec fuel (st : state (R:=R)) :
  ∃ sched, exec sched st = Some (run fuel st).
Proof.
  revert st. induction fuel as [|fuel IH]; intros st; [by exists []|].
  simpl. destruct (pick st) as [c|]; [|by exists []].
  destruct (step c st) as [st'|] eqn:Hst'; [|by exists []].
  destruct (IH st') as [sched Hsched]. exists (c :: sched). simpl. by rewrite Hst'.
Qed.

(** *** The batches and the order of the tasks *)

Lemma batches_pool i tr : batches (EvPool i :: tr) = batches tr ++ [[]].
Proof. unfold batches; simpl. by rewrite reverse_cons. Qed.

Lemma batches_submit id a tr done cur :
  batches tr = done ++ [cur] →
  batches (EvSubmit id a :: tr) = done ++ [cur ++ [a]].
Proof.
  unfold batches; simpl. destruct (groups tr) as [|g gs]; simpl.
  - intros H. by destruct done.
  - rewrite !reverse_cons. intros [-> ->]%app_inj_tail. done.
Qed.

Lemma first_batches_S K :
  first_batches (S K) = first_batches K ++ [slice requests (Z.of_nat K * batch_len) (Z.of_nat K * batch_len + batch_len)].
Proof. unfold first_batches. by rewrite seq_S, fmap_app. Qed.

Lemma zip_slice i j :
  zip (slice source_keys i j) (slice dest_keys i j) = slice requests i j.
Proof. unfold slice, requests. by rewrite zip_with_drop, zip_with_take. Qed.

Lemma length_requests :
  length source_keys = length dest_keys → Z.of_nat (length requests) = len.
Proof. intros H. unfold requests, Engine.len. rewrite length_zip_with. lia. Qed.

Lemma lookup_slice {A} (l : list A) i b (j : nat) :
  0 ≤ i → Z.of_nat j < b → slice l i (i + b) !! j = l !! (Z.to_nat i + j)%nat.
Proof.
  intros Hi Hj. unfold slice. rewrite lookup_take_lt by lia. by rewrite lookup_drop.
Qed.

Lemma length_slice {A} (l : list A) i b :
  0 ≤ i → 0 ≤ b →
  Z.of_nat (length (slice l i (i + b))) = Z.min b (Z.max 0 (Z.of_nat (length l) - i)).
Proof. intros Hi Hb. unfold slice. rewrite length_take, length_drop. lia. Qed.

Lemma concat_first_batches K :
  0 < batch_len → concat (first_batches K) = take (Z.to_nat (Z.of_nat K * batch_len)) requests.
Proof.
  intros Hb. induction K as [|K IH]; [done|].
  rewrite first_batches_S, concat_app, IH. simpl. rewrite app_nil_r. unfold slice.
  rewrite take_take_drop. f_equal. lia.
Qed.

Lemma div_batch B K x : 0 < B → K * B ≤ x < K * B + B → x / B = K.
Proof. intros HB Hx. symmetry. apply (Z.div_unique x B K (x - K * B)); lia. Qed.

Lemma div_lt_batch B K y : 0 < B → y / B < K → y < K * B.
Proof.
  intros HB Hy. destruct (Z_lt_ge_dec y (K * B)) as [|Hge]; [done|].
  assert (K ≤ y / B) by (apply Z.div_le_lower_bound; lia). lia.
Qed.

Lemma ceil_div_batches K :
  0 < batch_len → len ≤ Z.of_nat K * batch_len → (K = 0%nat ∨ (Z.of_nat K - 1) * batch_len < len) →
  ceil_div len batch_len = Z.of_nat K.
Proof.
  intros Hb Hle HK. unfold ceil_div.
  assert (- len / batch_len = - Z.of_nat K); [|lia].
  symmetry. apply (Z.div_unique _ batch_len _ (Z.of_nat K * batch_len - len)); [|lia].
  left. unfold Engine.len in *. destruct HK as [->|HK]; lia.
Qed.

Lemma done_upto_mono n e tr : done_upto n tr → done_upto n (e :: tr).
Proof.
  intros H id a Ha Hid. destruct (H id a Ha Hid) as [Hs [exc Hf]].
  split; [by right|]. exists exc. by right.
Qed.

Lemma fut_events_mono futs e tr : fut_events futs tr → fut_events futs (e :: tr).
Proof.
  intros H j f Hf. specialize (H j f Hf). destruct (f_state f); [done|by right|].
  destruct H. split; by right.
Qed.

Lemma batch_inv_init w0 : batch_inv (init w0).
Proof. by split. Qed.

Lemma batch_len_copy b : v = Copy b → batch_len = b.
Proof. unfold batch_len. by intros ->. Qed.

Lemma batch_len_download : v = Download → len ≤ batch_len.
Proof. unfold batch_len. intros ->. lia. Qed.

Lemma batches_other e tr :
  match e with EvPool _ | EvSubmit _ _ => False | _ => True end →
  batches (e :: tr) = batches tr.
Proof. by destruct e. Qed.

Lemma fmap_args_insert (futs : list (Future R)) n f s :
  futs !! n = Some f → f_args <$> <[n := set_state s f]> futs = f_args <$> futs.
Proof.
  intros Hf. rewrite list_fmap_insert. simpl. apply list_insert_id.
  by rewrite list_lookup_fmap, Hf.
Qed.

Lemma done_upto_le n m tr : m ≤ n → done_upto n tr → done_upto m tr.
Proof. intros Hle H id a Ha Hid. apply H; [done|lia]. Qed.

Lemma ib_fresh K i tr :
  i = Z.of_nat K * batch_len → (v = Download ∨ i < len) → (v = Download → K = 0%nat) →
  batches tr = first_batches K → done_upto i tr →
  in_batch_inv K i (slice requests i (i + batch_len)) [] (EvPool i :: tr).
Proof.
  intros Hi Hopen Hfirst Hbat Hdone. split; simpl; try done.
  - by rewrite batches_pool, Hbat.
  - by apply done_upto_mono.
Qed.

Lemma ib_submit K i a todo (futs : list (Future R)) tr :
  in_batch_inv K i (a :: todo) futs tr →
  in_batch_inv K i todo
    (futs ++ [mkFuture (Z.to_nat i + length futs) a PENDING])
    (EvSubmit (Z.to_nat i + length futs) a :: tr).
Proof.
  intros [Hi Hopen Hfirst Hbat Htodo Hids Hdone Hev]. split; try done.
  - rewrite fmap_app. simpl. by apply batches_submit.
  - rewrite fmap_app, <-app_assoc. done.
  - intros j f [Hj|[Hlen Hj]]%lookup_app_Some; [eauto|].
    destruct (j - length futs)%nat eqn:Hsub; simplify_eq/=. lia.
  - by apply done_upto_mono.
  - intros j f [Hj|[Hlen Hj]]%lookup_app_Some.
    + exact (fut_events_mono _ _ _ Hev j _ Hj).
    + destruct (j - length futs)%nat; by simplify_eq/=.
Qed.

Lemma ib_finish K i todo (futs : list (Future R)) tr n f r :
  in_batch_inv K i todo futs tr → futs !! n = Some f → f_state f = RUNNING →
  in_batch_inv K i todo (<[n := set_state (FINISHED r) f]> futs)
    (EvFinish (f_id f) (exc_of r) :: tr).
Proof.
  intros [Hi Hopen Hfirst Hbat Htodo Hids Hdone Hev] Hf Hrun.
  assert (Hn : (n < length futs)%nat) by by eapply lookup_lt_Some.
  split; try done.
  - by rewrite fmap_args_insert.
  - by rewrite fmap_args_insert.
  - intros j f' Hj. destruct (decide (n = j)) as [<-|Hne].
    + rewrite list_lookup_insert_eq in Hj by done. simplify_eq/=. eauto.
    + rewrite list_lookup_insert_ne in Hj by done. eauto.
  - by apply done_upto_mono.
  - intros j f' Hj. destruct (decide (n = j)) as [<-|Hne].
    + rewrite list_lookup_insert_eq in Hj by done. simplify_eq/=.
      specialize (Hev n f Hf). rewrite Hrun in Hev. split; [by right|left].
    + rewrite list_lookup_insert_ne in Hj by done.
      exact (fut_events_mono _ _ _ Hev j _ Hj).
Qed.

Lemma ib_start K i todo (futs : list (Future R)) tr n f :
  in_batch_inv K i todo futs tr → futs !! n = Some f →
  in_batch_inv K i todo (<[n := set_state RUNNING f]> futs)
    (EvStart (f_id f) (f_args f) :: tr).
Proof.
  intros [Hi Hopen Hfirst Hbat Htodo Hids Hdone Hev] Hf.
  assert (Hn : (n < length futs)%nat) by by eapply lookup_lt_Some.
  split; try done.
  - by rewrite fmap_args_insert.
  - by rewrite fmap_args_insert.
  - intros j f' Hj. destruct (decide (n = j)) as [<-|Hne].
    + rewrite list_lookup_insert_eq in Hj by done. simplify_eq/=. eauto.
    + rewrite list_lookup_insert_ne in Hj by done. eauto.
  - by apply done_upto_mono.
  - intros j f' Hj. destruct (decide (n = j)) as [<-|Hne].
    + rewrite list_lookup_insert_eq in Hj by done. simplify_eq/=. left.
    + rewrite list_lookup_insert_ne in Hj by done.
      exact (fut_events_mono _ _ _ Hev j _ Hj).
Qed.

Lemma ib_request K i todo (futs : list (Future R)) tr j f :
  in_batch_inv K i todo futs tr → futs !! j = Some f →
  requests !! f_id f = Some (f_args f).
Proof.
  intros [Hi Hopen Hfirst Hbat Htodo Hids Hdone Hev] Hf.
  assert (((f_args <$> futs) ++ todo) !! j = Some (f_args f)) as Hj.
  { apply lookup_app_l_Some. by rewrite list_lookup_fmap, Hf. }
  rewrite Htodo in Hj. unfold slice in Hj.
  apply lookup_take_Some in Hj as [Hj _]. rewrite lookup_drop in Hj.
  by rewrite (Hids j f Hf).
Qed.

Lemma finish_sound_other e tr :
  match e with EvFinish _ _ => False | _ => True end →
  finish_sound tr → finish_sound (e :: tr).
Proof.
  intros He H id exc [<-|Hin]%elem_of_cons; [done|]. by apply H.
Qed.

Lemma finish_sound_step c st st' :
  pool_inv st → batch_inv st → finish_sound (trace st) → step c st = Some st' →
  finish_sound (trace st').
Proof.
  intros HP [Hpc _] Hfs Hs.
  assert (Hpool : in_batch (at_pc st) = false → _threads (pool st) = []).
  { intros Hp. destruct HP as [Hg _ _ _ _]. by rewrite (Hg Hp). }
  unfold pc_inv in Hpc. step_cases Hs; simpl in *.
  all: try (specialize (Hpool eq_refl); simplify_eq/=; fail).
  all: try done.
  all: try (repeat apply finish_sound_other; done).
  all: match goal with
       | Hf : _ !! _ = Some ?f, Hfunc : func _ _ ?wa = (_, _) |- _ =>
           assert (requests !! f_id f = Some (f_args f)) as Hreq
             by (first [destruct Hpc as [[K HK] _]|destruct Hpc as [K HK]];
                 by eapply ib_request);
           intros ? ? [[= -> ->]|Hin]%elem_of_cons; [|by apply Hfs];
           exists (f_args f), wa; by rewrite Hfunc
       end.
Qed.

Lemma finished_args_finish (futs : list (Future R)) n f r :
  futs !! n = Some f → f_state f = RUNNING →
  finished_args (<[n := set_state (FINISHED r) f]> futs) ≡ₚ f_args f :: finished_args futs.
Proof.
  revert n. induction futs as [|g futs IH]; intros [|n] Hf Hrun; simplify_eq/=.
  - unfold finished_args. simpl. by rewrite Hrun.
  - unfold finished_args in *. simpl. destruct (f_state g); simpl; [by apply IH..|].
    rewrite IH by done. apply Permutation_swap.
Qed.

Lemma finished_args_start (futs : list (Future R)) n f :
  futs !! n = Some f → f_state f = PENDING →
  finished_args (<[n := set_state RUNNING f]> futs) = finished_args futs.
Proof.
  revert n. induction futs as [|g futs IH]; intros [|n] Hf Hp; simplify_eq/=.
  - unfold finished_args. simpl. by rewrite Hp.
  - unfold finished_args in *. simpl. by rewrite IH.
Qed.

Lemma finished_args_submit (futs : list (Future R)) id a :
  finished_args (futs ++ [mkFuture id a PENDING]) = finished_args futs.
Proof. unfold finished_args. rewrite omap_app. simpl. by rewrite app_nil_r. Qed.

Lemma finished_args_all (futs : list (Future R)) :
  (∀ j f, futs !! j = Some f → ∃ r, f_state f = FINISHED r) →
  finished_args futs = f_args <$> futs.
Proof.
  induction futs as [|g futs IH]; intros Hall; [done|].
  unfold finished_args in *. simpl. destruct (Hall 0%nat g eq_refl) as [r ->]. simpl.
  f_equal. apply IH. intros j f Hf. by apply (Hall (S j)).
Qed.

(** With lists of unequal length the call takes one step, to its
    [ValueError]; so does [_download_many] with [max_workers <= 0]. *)
Lemma one_step_reachable w1 sched st st1 :
  main_step (init w1) = Some st1 → (∀ c, step c st1 = None) →
  exec sched (init w1) = Some st → st = init w1 ∨ st = st1.
Proof.
  intros Hmain Hstuck He. destruct sched as [|c sched]; simpl in He; [left; by simplify_eq|].
  right. destruct c as [|j|t]; simpl in He; [|done..].
  rewrite Hmain in He. destruct sched as [|c' sched]; simpl in He; [by simplify_eq|].
  by rewrite Hstuck in He.
Qed.

Lemma mismatch_reachable w1 sched st :
  length source_keys ≠ length dest_keys →
  exec sched (init w1) = Some st →
  st = init w1 ∨ st = mkState (Raised (length_error v)) no_pool [] w1 [].
Proof.
  intros Hne. apply one_step_reachable; [|by intros [|j|t]].
  unfold Engine.main_step; simpl. by rewrite bool_decide_eq_true_2.
Qed.

Lemma refused_reachable w1 sched st :
  v = Download → length source_keys = length dest_keys → max_workers ≤ 0 →
  exec sched (init w1) = Some st →
  st = init w1
  ∨ st = mkState (Raised (ValueError "max_workers must be greater than 0"))
                 no_pool [] w1 [].
Proof.
  intros Hv Hlen Hmw. apply one_step_reachable; [|by intros [|j|t]].
  unfold Engine.main_step, enter_pool; simpl. rewrite Hv.
  rewrite bool_decide_eq_false_2 by (by intros ?). by rewrite bool_decide_eq_true_2.
Qed.

(** A run is no longer than the measure of the state it starts in. *)
Lemma exec_steps sched (st st' : state (R:=R)) :
  exec sched st = Some st' → measure st' + Z.of_nat (length sched) ≤ measure st.
Proof.
  revert st. induction sched as [|c sched IH]; intros st He; simpl in He.
  - simplify_eq. simpl. lia.
  - destruct (step c st) as [st1|] eqn:Hs; [|done].
    pose proof (step_decreases c st st1 Hs). specialize (IH st1 He).
    simpl length. lia.
Qed.

(** With a size that is not positive no pool is ever entered. *)
Lemma untouched_step w1 c st st' :
  (max_workers ≤ 0 ∨ ∃ b, v = Copy b ∧ b ≤ 0) →
  untouched w1 st → step c st = Some st' → untouched w1 st'.
Proof.
  intros Hsize (Hpc & Hpool & Hfuts & Htr & Hw) Hs.
  step_cases Hs; simpl in *; simplify_eq/=.
  all: try done.
  all: try (destruct Hsize as [?|(b & ? & ?)]; simplify_eq; lia).
Qed.

Lemma untouched_reachable w1 sched st :
  (max_workers ≤ 0 ∨ ∃ b, v = Copy b ∧ b ≤ 0) →
  exec sched (init w1) = Some st → untouched w1 st.
Proof.
  intros Hsize. apply exec_invariant; [intros ????; by eapply untouched_step|done].
Qed.

Section Valid.
Hypothesis Hlen : length source_keys = length dest_keys.
Hypothesis Hmw : 0 < max_workers.
Hypothesis Hb : 0 < batch_len.

Lemma ordered_start K i todo (futs : list (Future R)) tr n f :
  in_batch_inv K i todo futs tr → futs !! n = Some f → ordered tr →
  ordered (EvStart (f_id f) (f_args f) :: tr).
Proof.
  intros [Hi Hopen Hfirst Hbat Htodo Hids Hdone Hev] Hf Hord.
  split; [|done]. intros id Hid Hlt.
  assert (Hn : Z.of_nat n < batch_len).
  { apply lookup_lt_Some in Hf.
    assert (length (f_args <$> futs) ≤ length (slice requests i (i + batch_len)))%nat.
    { rewrite <-Htodo, length_app. lia. }
    rewrite length_fmap in *.
    pose proof (length_slice requests i batch_len). lia. }
  rewrite (Hids n f Hf) in Hlt.
  rewrite (div_batch batch_len (Z.of_nat K) (Z.of_nat (Z.to_nat i + n))) in Hlt by lia.
  apply div_lt_batch in Hlt; [|done].
  apply lookup_lt_is_Some_2 in Hid as [a Ha].
  destruct (Hdone id a Ha) as [_ Hfin]; [lia|done].
Qed.

Lemma ib_all_done K i (futs : list (Future R)) tr :
  in_batch_inv K i [] futs tr →
  (∀ j f, futs !! j = Some f → ∃ r, f_state f = FINISHED r) →
  done_upto (i + batch_len) tr.
Proof.
  intros [Hi Hopen Hfirst Hbat Htodo Hids Hdone Hev] Hfin id a Ha Hid.
  destruct (Z_lt_ge_dec (Z.of_nat id) i) as [Hlt|Hge]; [by apply Hdone|].
  rewrite app_nil_r in Htodo.
  assert ((f_args <$> futs) !! (id - Z.to_nat i)%nat = Some a) as Hj.
  { rewrite Htodo, lookup_slice by lia. rewrite <-Ha. f_equal. lia. }
  apply list_lookup_fmap_Some in Hj as (f & -> & Hf).
  specialize (Hids _ f Hf). destruct (Hfin _ f Hf) as [r Hr].
  specialize (Hev _ f Hf). rewrite Hr in Hev.
  replace id with (f_id f) by lia. destruct Hev. eauto.
Qed.

Lemma drained_all_finished (st : state (R:=R)) :
  futures_inv st → drained (pool st) = true →
  ∀ j f, futures st !! j = Some f → ∃ r, f_state f = FINISHED r.
Proof.
  intros [Hqp Hnd Hbr Hbi Hpq Hrb Hsp Hwv] Hd j f Hf.
  destruct (f_state f) as [| |r] eqn:Hst; [| |by exists r].
  - specialize (Hpq j f Hf Hst). rewrite (drained_queue _ Hd) in Hpq.
    by apply elem_of_nil in Hpq.
  - destruct (Hrb j f Hf Hst) as [t Ht]. by destruct (drained_idle _ t j Hd).
Qed.

Lemma batch_inv_step c st st' :
  pool_inv st → futures_inv st → batch_inv st → step c st = Some st' → batch_inv st'.
Proof.
  intros HP HF [Hpc Hord] Hs.
  assert (Hpool : in_batch (at_pc st) = false → _threads (pool st) = []).
  { intros Hp. destruct HP as [Hg _ _ _ _]. by rewrite (Hg Hp). }
  assert (Hrun : ∀ t n f, _threads (pool st) !! t = Some (Some n) →
    futures st !! n = Some f → f_state f = RUNNING).
  { intros t n f Ht Hf. destruct HF as [_ _ Hbr _ _ _ _ _].
    destruct (Hbr t n Ht) as (f' & Hf' & Hst). by simplify_eq. }
  pose proof (drained_all_finished st HF) as Hfin.
  unfold pc_inv in Hpc. step_cases Hs; simpl in *.
  all: try (specialize (Hpool eq_refl); simplify_eq/=; fail).
  all: try lia.
  all: try (pose proof (batch_len_copy _ ltac:(eassumption)); lia).
  all: try done.
  (* the steps of the workers *)
  all: try match goal with
           | Hth : _ !! _ = Some (Some _) |- _ =>
               first
                 [ destruct Hpc as [[K HK] Hexc]; split; [|done]; split;
                   [ exists K; apply ib_finish; eauto
                   | intros e He; destruct (Hexc e He) as [Hdl [id Hid]];
                     split; [done|]; exists id; by right ]
                 | destruct Hpc as [K HK]; split; [|done]; exists K;
                   apply ib_finish; eauto ]
           | Hth : _ !! _ = Some None |- _ =>
               first
                 [ destruct Hpc as [[K HK] Hexc]; split; [|by eapply ordered_start];
                   split;
                   [ by exists K; apply ib_start
                   | intros e He; destruct (Hexc e He) as [Hdl [id Hid]];
                     split; [done|]; exists id; by right ]
                 | destruct Hpc as [K HK]; split; [|by eapply ordered_start];
                   exists K; by apply ib_start ]
           end.
  - (* Entry, to the loop *)
    split; [|done]. exists 0%nat. split_and!; try done; [by left|].
    intros id a _ Hid. lia.
  - (* Entry, _download_many enters its pool *)
    split; [|done]. exists 0%nat. unfold pc_inv; simpl.
    pose proof (batch_len_download ltac:(done)) as Hle.
    replace (zip source_keys dest_keys) with (slice requests 0 (0 + batch_len)).
    + apply ib_fresh; try done; [by left|]. intros id a _ Hid. lia.
    + unfold slice. simpl. rewrite take_ge; [done|].
      pose proof (length_requests Hlen). rewrite length_drop. lia.
  - (* the loop enters a pool *)
    destruct Hpc as (K & HK & Hbat & HKlt & Hdone).
    split; [|done]. exists K. unfold pc_inv; simpl.
    rewrite zip_slice. rewrite <-(batch_len_copy batch_size) by done.
    apply ib_fresh; try done; [right; lia|congruence].
  - (* the loop ends *)
    destruct Hpc as (K & HK & Hbat & HKlt & Hdone).
    pose proof (batch_len_copy batch_size ltac:(done)) as Hbs.
    split; [|done]. unfold pc_inv; simpl. split.
    + eapply done_upto_le; [|done]. lia.
    + exists K. split_and!; [done|lia|]. by destruct v.
  - destruct Hpc as [K HK]. split; [|done]. exists K. by apply ib_submit.
  - (* leaving with an exception *)
    destruct Hpc as [[K HK] Hexc]. destruct (Hexc e eq_refl) as [Hdl [id Hid]].
    clear Hexc. rename Hdl into Hexc.
    pose proof (batch_len_download Hexc) as Hle.
    pose proof (ib_all_done K i futs tr HK (Hfin eq_refl)) as Hall.
    destruct HK as [Hi Hopen Hfirst Hbat Htodo Hids Hdone Hev].
    specialize (Hfirst Hexc). subst K. simpl in Hi. subst i.
    split; [|done]. unfold pc_inv; simpl. split_and!; [done| | |].
    + apply done_upto_mono. eapply done_upto_le; [|done]. lia.
    + rewrite batches_other by done. rewrite Hbat, first_batches_S, app_nil_r in *.
      by rewrite Htodo.
    + exists id. by right.
  - (* leaving a batch of _copy_many *)
    destruct Hpc as [[K HK] _].
    pose proof (batch_len_copy batch_size ltac:(done)) as Hbs.
    pose proof (ib_all_done K i futs tr HK (Hfin eq_refl)) as Hall.
    destruct HK as [Hi Hopen Hfirst Hbat Htodo Hids Hdone Hev].
    split; [|done]. unfold pc_inv; simpl. exists (S K). split_and!.
    + lia.
    + rewrite !batches_other by done. rewrite Hbat, first_batches_S, app_nil_r in *.
      by rewrite Htodo, Hi.
    + right. destruct Hopen; [congruence|lia].
    + do 2 apply done_upto_mono. by rewrite <-Hbs.
  - (* leaving the pool of _download_many *)
    destruct Hpc as [[K HK] _].
    pose proof (batch_len_download ltac:(done)) as Hle.
    pose proof (ib_all_done K i futs tr HK (Hfin eq_refl)) as Hall.
    destruct HK as [Hi Hopen Hfirst Hbat Htodo Hids Hdone Hev].
    specialize (Hfirst ltac:(done)). subst K. simpl in Hi. subst i.
    split; [|done]. unfold pc_inv; simpl. split.
    + apply done_upto_mono. eapply done_upto_le; [|done]. lia.
    + exists 1%nat. split_and!; [|lia|by destruct v].
      rewrite batches_other by done. rewrite Hbat, first_batches_S, app_nil_r in *.
      by rewrite Htodo.
  - (* a future that raised is yielded by _download_many *)
    destruct Hpc as [K HK]. split; [|done]. split; [by exists K|].
    intros ? [= <-]. split; [done|].
    destruct (futs !! j) as [f|] eqn:Hf; simplify_eq/=.
    destruct HK as [_ _ _ _ _ _ _ Hev]. specialize (Hev j f Hf).
    match goal with Hst : f_state f = _ |- _ => rewrite Hst in Hev end.
    destruct Hev as [_ Hev]. by exists (f_id f).
Qed.

Lemma invariants_reachable sched w0 st :
  exec sched (init w0) = Some st → pool_inv st ∧ futures_inv st ∧ batch_inv st.
Proof.
  apply (exec_invariant (λ st, pool_inv st ∧ futures_inv st ∧ batch_inv st)).
  - intros c st1 st2 (HP & HF & HB) Hs. split_and!.
    + by eapply pool_inv_step.
    + by eapply futures_inv_step.
    + by eapply batch_inv_step.
  - split_and!; [apply pool_inv_init|apply futures_inv_init|apply batch_inv_init].
Qed.

Lemma exec_length sched (st st' : state (R:=R)) :
  exec sched st = Some st' → measure st' + Z.of_nat (length sched) ≤ measure st.
Proof.
  revert st. induction sched as [|c sched IH]; intros st He; simpl in He.
  - simplify_eq. simpl. lia.
  - destruct (step c st) as [st1|] eqn:Hs; [|done].
    pose proof (step_decreases c st st1 Hs). specialize (IH st1 He).
    simpl length. lia.
Qed.

(** From a reachable state the call can always be completed. *)
Lemma completion sched w0 st :
  exec sched (init w0) = Some st →
  ∃ sched' st', exec (sched ++ sched') (init w0) = Some st' ∧ terminal st' = true.
Proof.
  intros He. destruct (invariants_reachable sched w0 st He) as (HP & HF & _).
  destruct (run_exec (Z.to_nat (measure st)) st) as [sched' Hs'].
  exists sched', (run (Z.to_nat (measure st)) st). split.
  - by rewrite exec_app, He.
  - apply run_terminates; [done|done|]. pose proof (measure_nonneg st). lia.
Qed.

Lemma ordered_split tr later id' a' earlier :
  ordered tr → tr = later ++ EvStart id' a' :: earlier →
  ∀ id : nat, (id < length requests)%nat →
    Z.of_nat id / batch_len < Z.of_nat id' / batch_len → ∃ exc, EvFinish id exc ∈ earlier.
Proof.
  revert tr. induction later as [|e later IH]; intros tr Hord ->; simpl in Hord.
  - by destruct Hord.
  - destruct Hord as [_ Hord]. by eapply IH.
Qed.

Lemma first_batches_lookup K k b :
  first_batches K !! k = Some b →
  (k < K)%nat ∧ b = slice requests (Z.of_nat k * batch_len) (Z.of_nat k * batch_len + batch_len).
Proof.
  unfold first_batches. rewrite list_lookup_fmap. intros Hk.
  destruct (seq 0 K !! k) as [k'|] eqn:Hseq; simplify_eq/=.
  apply lookup_seq in Hseq as [-> Hlt]. done.
Qed.

Lemma length_first_batches K : length (first_batches K) = K.
Proof. unfold first_batches. by rewrite length_fmap, length_seq. Qed.

Lemma finish_sound_reachable sched w1 st :
  exec sched (init w1) = Some st → finish_sound (trace st).
Proof.
  intros He.
  enough (pool_inv st ∧ futures_inv st ∧ batch_inv st ∧ finish_sound (trace st)) by tauto.
  revert He.
  apply (exec_invariant
           (λ st, pool_inv st ∧ futures_inv st ∧ batch_inv st ∧ finish_sound (trace st))).
  - intros c st1 st2 (HP & HF & HB & HS) Hs. split_and!.
    + by eapply pool_inv_step.
    + by eapply futures_inv_step.
    + by eapply batch_inv_step.
    + by eapply finish_sound_step.
  - split_and!; [apply pool_inv_init|apply futures_inv_init|apply batch_inv_init|].
    intros id exc Hin. by apply elem_of_nil in Hin.
Qed.

Section Requests.
Variable req : string → string → S3.call.
Hypothesis Hreq : ∀ s d w1, calls (func s d w1).2 = req s d :: calls w1.

Lemma sent_step sent_before c st st' :
  pool_inv st → futures_inv st → batch_inv st → sent req sent_before st →
  step c st = Some st' → sent req sent_before st'.
Proof.
  intros HP HF [Hpc _] Hsent Hs.
  assert (Hpool : in_batch (at_pc st) = false → _threads (pool st) = []).
  { intros Hp. destruct HP as [Hg _ _ _ _]. by rewrite (Hg Hp). }
  assert (Hrun : ∀ t n f, _threads (pool st) !! t = Some (Some n) →
    futures st !! n = Some f → f_state f = RUNNING).
  { intros t n f Ht Hf. destruct HF as [_ _ Hbr _ _ _ _ _].
    destruct (Hbr t n Ht) as (f' & Hf' & Hst). by simplify_eq. }
  assert (Hpend : ∀ n q f, _work_queue (pool st) = n :: q →
    futures st !! n = Some f → f_state f = PENDING).
  { intros n q f Hq Hf. destruct HF as [Hqp _ _ _ _ _ _ _].
    destruct (Hqp n) as (f' & Hf' & Hst); [rewrite Hq; left|]. by simplify_eq. }
  pose proof (drained_all_finished st HF) as Hfin.
  unfold pc_inv in Hpc. unfold sent in *. step_cases Hs; simpl in *.
  all: try (specialize (Hpool eq_refl); simplify_eq/=; fail).
  all: try lia.
  all: try (pose proof (batch_len_copy _ ltac:(eassumption)); lia).
  all: try done.
  (* the steps of the workers *)
  all: try match goal with
           | Hth : _ !! _ = Some (Some ?n), Hf : _ !! ?n = Some ?f,
             Hfunc : func _ _ ?wa = (?o, _) |- _ =>
               pose proof (Hreq (f_args f).1 (f_args f).2 wa) as Hc;
               rewrite Hfunc in Hc; simpl in Hc;
               rewrite Hc, (finished_args_finish _ n f o Hf (Hrun _ _ _ Hth Hf));
               rewrite fmap_cons; simpl; by rewrite Hsent
           | Hth : _ !! _ = Some None, Hf : _ !! ?n = Some ?f |- _ =>
               by rewrite (finished_args_start _ n f Hf (Hpend _ _ _ eq_refl Hf))
           end.
  all: try (by rewrite finished_args_submit).
  all: pose proof (length_requests Hlen) as Hlr; unfold Engine.len in *.
  (* the loop ends *)
  1:{ match goal with Hv : v = Copy _ |- _ => pose proof (batch_len_copy _ Hv) end.
      rewrite take_ge in Hsent; [done|]. lia. }
  all: destruct Hpc as [[K HK] Hexc];
    rewrite (finished_args_all futs (Hfin eq_refl)) in Hsent;
    destruct HK as [Hi Hopen Hfirst Hbat Htodo Hids Hdone Hev];
    rewrite app_nil_r in Htodo; rewrite Htodo in Hsent; unfold slice in Hsent.
  (* leaving a batch of _copy_many *)
  1:{ match goal with Hv : v = Copy _ |- _ => pose proof (batch_len_copy _ Hv) as Hbs end.
      rewrite Hbs in *.
      replace (Z.to_nat (i + batch_size))
        with (Z.to_nat i + Z.to_nat (i + batch_size - i))%nat by lia.
      rewrite <-take_take_drop, fmap_app, Hsent, !app_assoc. f_equiv.
      apply Permutation_app_comm. }
  (* leaving the pool of _download_many *)
  all: assert (v = Download) as Hv by (first [done|by destruct (Hexc _ eq_refl)]);
    pose proof (batch_len_download Hv) as Hle; unfold Engine.len in *;
    specialize (Hfirst Hv); subst K; simpl in Hi; subst i;
    rewrite drop_0, take_0, take_ge in Hsent by lia; done.
Qed.

Lemma sent_reachable sched w1 st :
  exec sched (init w1) = Some st → sent req (calls w1) st.
Proof.
  intros He.
  enough (pool_inv st ∧ futures_inv st ∧ batch_inv st ∧ sent req (calls w1) st) by tauto.
  revert He.
  apply (exec_invariant
           (λ st, pool_inv st ∧ futures_inv st ∧ batch_inv st ∧ sent req (calls w1) st)).
  - intros c st1 st2 (HP & HF & HB & HS) Hs. split_and!.
    + by eapply pool_inv_step.
    + by eapply futures_inv_step.
    + by eapply batch_inv_step.
    + by eapply sent_step.
  - split_and!; [apply pool_inv_init|apply futures_inv_init|apply batch_inv_init|done].
Qed.

End Requests.

Lemma progress_lines_S K :
  progress_lines (S K)
  = progress_line source_keys (Z.of_nat K * batch_len) batch_len :: progress_lines K.
Proof. unfold progress_lines. by rewrite seq_S, reverse_snoc. Qed.

Lemma is_progress_line_progress i b :
  is_progress_line (progress_line source_keys i b) = true.
Proof.
  unfold progress_line.
  generalize (pretty (i / 1000 + 1) +:+ "/" +:+ pretty (batch_count source_keys b)).
  intros rest. by destruct rest.
Qed.

Lemma is_progress_line_error (e : exn) :
  is_progress_line ("Error in copying: " +:+ str e) = false.
Proof. generalize (str e). intros rest. reflexivity. Qed.

Section Quiet.
Hypothesis Hquiet : ∀ s d w1,
  filter (λ line, is_progress_line line = true) (stdout (func s d w1).2)
  = filter (λ line, is_progress_line line = true) (stdout w1).

Lemma printed_step lines_before c st st' :
  pool_inv st → batch_inv st → printed lines_before st →
  step c st = Some st' → printed lines_before st'.
Proof.
  intros HP [Hpc _] Hpr Hs.
  assert (Hpool : in_batch (at_pc st) = false → _threads (pool st) = []).
  { intros Hp. destruct HP as [Hg _ _ _ _]. by rewrite (Hg Hp). }
  unfold pc_inv in Hpc. unfold printed in *.
  destruct v as [b|] eqn:Hv; [|done].
  pose proof (batch_len_copy b Hv) as Hbs.
  step_cases Hs; simpl in *.
  all: try (specialize (Hpool eq_refl); simplify_eq/=; fail).
  all: try done.
  (* the steps of the workers *)
  all: try match goal with
           | Hfunc : func ?s ?d ?wa = (_, _) |- _ =>
               pose proof (Hquiet s d wa) as Hq; rewrite Hfunc in Hq; simpl in Hq;
               by rewrite Hq
           end.
  - (* the loop ends *)
    destruct Hpc as (K & HK & _ & HKlt & _).
    rewrite (ceil_div_batches K) by (try done; lia).
    rewrite HK, Z.div_mul in Hpr by lia. done.
  - (* leaving a batch *)
    destruct Hpc as [[K [Hi _ _ _ _ _ _ _]] _].
    rewrite filter_cons_True by apply is_progress_line_progress.
    rewrite Hpr, Hi. replace (Z.of_nat K * batch_len + batch_len)
      with ((Z.of_nat K + 1) * batch_len) by lia.
    rewrite !Z.div_mul by lia.
    replace (Z.to_nat (Z.of_nat K + 1)) with (S (Z.to_nat (Z.of_nat K))) by lia.
    by rewrite progress_lines_S, Nat2Z.id.
Qed.

Lemma printed_reachable sched w1 st :
  exec sched (init w1) = Some st →
  printed (filter (λ line, is_progress_line line = true) (stdout w1)) st.
Proof.
  intros He.
  enough (pool_inv st ∧ futures_inv st ∧ batch_inv st
          ∧ printed (filter (λ line, is_progress_line line = true) (stdout w1)) st)
    by tauto.
  revert He.
  apply (exec_invariant
           (λ st, pool_inv st ∧ futures_inv st ∧ batch_inv st
                  ∧ printed (filter (λ line, is_progress_line line = true) (stdout w1)) st)).
  - intros c st1 st2 (HP & HF & HB & HS) Hs. split_and!.
    + by eapply pool_inv_step.
    + by eapply futures_inv_step.
    + by eapply batch_inv_step.
    + by eapply printed_step.
  - split_and!; [apply pool_inv_init|apply futures_inv_init|apply batch_inv_init|].
    unfold printed. by destruct v.
Qed.

End Quiet.

End Valid.
End Facts.

End EngineFacts.

(** * The single-item operations *)

Ltac run_M :=
  unfold mbind, M_bind, bind, mret, M_ret, ret, raise, print, request, open_rb,
    try_except_ClientError, key_error in *; simpl in *.







(** Claim C7 fails for the size query: [_get_size] has no handler, and a
    [ClientError] of [head_object] reaches the caller. *)
Theorem get_size_raises :
  (S3Client._get_size Examples.store_denied Examples.bucket "a/1.txt" empty_world).1
  = Raise (ClientError "AccessDenied").
Proof. reflexivity. Qed.

(** The other single-item operations turn a [ClientError] into their
    sentinel. *)
Lemma single_item_sentinels (s3 : S3.client) (b b' : BaseEnum) (k k' : string)
    (data : bytes) (w : world) :
  (∀ h c, ∃ msg, s3 h c = Raise (ClientError msg)) →
  (S3Client._upload_bytes s3 b data k None w).1 = Return false
  ∧ (S3Client._copy_object s3 b k b' k' w).1 = Return false
  ∧ (S3Client._delete_object s3 b k w).1 = Return false
  ∧ (S3Client._get_file_obj s3 b k w).1 = Return None
  ∧ (S3Client._list_keys_of_prefix s3 b k w).1 = Return []
  ∧ (S3Client._key_exists s3 b k w).1 = Return false
  ∧ ∃ msg, (S3Client._get_size s3 b k w).1 = Raise (ClientError msg).
Proof.
  intros Hs.
  unfold S3Client._upload_bytes, S3Client._copy_object, S3Client._delete_object,
    S3Client._get_file_obj, S3Client._list_keys_of_prefix, S3Client._key_exists,
    S3Client._get_size, S3Client._get_bucket.
  run_M.
  split_and!;
    try match goal with
        | |- context [s3 ?h ?c] => destruct (Hs h c) as [msg ->]; simpl; eauto
        end.
Qed.

(** Claim C8 fails: [move_object] calls [_move_object], which copies and
    deletes, and then deletes the source a second time. *)
Theorem move_object_deletes_twice :
  reverse (calls (S3BucketClient.move_object Examples.store_ok Examples.bucket
                    "a/1.txt" "b/1.txt" empty_world).2)
  = [ S3.copy_object "bucket" "b/1.txt" ("bucket", "a/1.txt") None None;
      S3.delete_object "bucket" "a/1.txt";
      S3.delete_object "bucket" "a/1.txt" ].
Proof. reflexivity. Qed.

(** On every store that reports its failures as [ClientError]s, the
    gateway's [_move_object] sends one copy and one delete, and the facade's
    [move_object] one copy and two deletes. *)
Lemma move_object_calls (s3 : S3.client) (b : BaseEnum) (source_key dest_key : string)
    (w : world) :
  S3.raises_only_ClientError s3 →
  let copy := S3.copy_object (value b) dest_key (value b, source_key) None None in
  let delete := S3.delete_object (value b) source_key in
  calls (S3Client._move_object s3 b source_key b dest_key w).2
    = delete :: copy :: calls w
  ∧ calls (S3BucketClient.move_object s3 b source_key dest_key w).2
    = delete :: delete :: copy :: calls w.
Proof.
  intros Hstore copy delete.
  unfold S3BucketClient.move_object, S3BucketClient.delete_object,
    S3Client._move_object, S3Client._copy_object, S3Client._delete_object,
    S3Client._get_bucket.
  run_M.
  repeat match goal with
         | |- context [s3 ?h ?c] =>
             let H := fresh "Hcall" in
             destruct (s3 h c) as [?|?] eqn:H; simpl;
             [|destruct (Hstore _ _ _ H) as [? ->]; simpl]
         end; done.
Qed.

(** * The batch engine *)

Import Engine.

(** Claim C1.  For request lists of equal length and [batch_size > 0],
    [_copy_many] can always be completed, whatever interleaving was
    scheduled so far, and once it has returned: the batches it processed
    are [ceil(N / batch_size)] in number; concatenated in order they are the
    original sequence of (source, destination) pairs; batch [k] is the
    slice [k * batch_size : k * batch_size + batch_size] of the requests, of
    exactly [batch_size] items unless it is the last, which is not empty;
    and every request was handed to a worker with its own pair of keys and
    ran to its end. *)
Theorem copy_many_partitions {R : Type} (copy_func : string → string → M R)
    (source_keys dest_keys : list string) (max_workers batch_size : Z) (w0 : world) :
  length source_keys = length dest_keys → 0 < max_workers → 0 < batch_size →
  let requests := zip source_keys dest_keys in
  ∀ sched st,
    S3Client._copy_many source_keys dest_keys copy_func max_workers batch_size
      sched w0 = Some st →
    (∃ sched' st',
        S3Client._copy_many source_keys dest_keys copy_func max_workers batch_size
          (sched ++ sched') w0 = Some st'
        ∧ at_pc st' = Returned)
    ∧ (at_pc st = Returned →
       let bl := Engine.batches (trace st) in
       Z.of_nat (length bl) = ceil_div (Z.of_nat (length requests)) batch_size
       ∧ concat bl = requests
       ∧ (∀ (k : nat) b, bl !! k = Some b →
            b = slice requests (Z.of_nat k * batch_size)
                  (Z.of_nat k * batch_size + batch_size)
            ∧ 0 < Z.of_nat (length b) ≤ batch_size
            ∧ ((S k < length bl)%nat → Z.of_nat (length b) = batch_size))
       ∧ (∀ (id : nat) a, requests !! id = Some a →
            EvStart id a ∈ trace st ∧ ∃ exc, EvFinish id exc ∈ trace st)).
Proof.
  intros Hlen Hmw Hb requests sched st He. unfold S3Client._copy_many in *.
  assert (Hbsz : 0 < EngineFacts.batch_len (Copy batch_size) source_keys) by done.
  pose proof (EngineFacts.length_requests source_keys dest_keys Hlen) as Hpairs.
  fold requests in Hpairs.
  split.
  - destruct (EngineFacts.completion copy_func _ _ _ _ Hlen Hmw Hbsz sched w0 st He)
      as (sched' & st' & He' & Hterm).
    exists sched', st'. split; [done|].
    destruct (EngineFacts.invariants_reachable copy_func _ _ _ _ Hlen Hmw Hbsz _ _ _ He')
      as (_ & _ & [Hpc _]).
    unfold EngineFacts.pc_inv, terminal in *. destruct (at_pc st'); try done.
    by destruct Hpc.
  - intros Hret.
    destruct (EngineFacts.invariants_reachable copy_func _ _ _ _ Hlen Hmw Hbsz _ _ _ He)
      as (_ & _ & [Hpc _]).
    unfold EngineFacts.pc_inv in Hpc. rewrite Hret in Hpc.
    destruct Hpc as (Hdone & K & Hbat & HK & HKlt). simpl in *.
    change (EngineFacts.requests source_keys dest_keys) with requests in *.
    unfold Engine.len in *. rewrite Hbat.
    split_and!.
    + rewrite EngineFacts.length_first_batches, Hpairs. symmetry.
      by apply (EngineFacts.ceil_div_batches (Copy batch_size) source_keys K).
    + rewrite EngineFacts.concat_first_batches by done. apply take_ge. simpl. lia.
    + intros k b Hk. apply EngineFacts.first_batches_lookup in Hk as [Hlt ->]. simpl.
      change (EngineFacts.requests source_keys dest_keys) with requests.
      rewrite EngineFacts.length_first_batches.
      pose proof (EngineFacts.length_slice requests (Z.of_nat k * batch_size) batch_size)
        as Hls.
      split; [done|]. destruct HKlt as [->|HKlt]; [lia|]. nia.
    + intros id a Ha. apply (Hdone id a Ha).
      apply lookup_lt_Some in Ha. lia.
Qed.

(** The example of the specification: three copies in batches of two. *)
Lemma copy_many_partitions_witness :
  ∃ st,
    S3Client._copy_many Scenario.source_keys Scenario.dest_keys Scenario.copy_func 2 2
      Scenario.schedule empty_world = Some st
    ∧ at_pc st = Returned
    ∧ Engine.batches (trace st)
      = [[("a/1.txt", "b/1.txt"); ("a/2.txt", "b/2.txt")]; [("a/3.txt", "b/3.txt")]]
    ∧ Z.of_nat (length (Engine.batches (trace st))) = ceil_div 3 2
    ∧ concat (Engine.batches (trace st))
      = zip Scenario.source_keys Scenario.dest_keys.
Proof.
  assert (∃ st,
    S3Client._copy_many Scenario.source_keys Scenario.dest_keys Scenario.copy_func 2 2
      Scenario.schedule empty_world = Some st
    ∧ at_pc st = Returned
    ∧ Engine.batches (trace st)
      = [[("a/1.txt", "b/1.txt"); ("a/2.txt", "b/2.txt")]; [("a/3.txt", "b/3.txt")]])
    as (st & He & Hret & Hbat).
  { vm_compute. eexists. split; [reflexivity|]. split; reflexivity. }
  exists st.
  destruct (copy_many_partitions Scenario.copy_func Scenario.source_keys
              Scenario.dest_keys 2 2 empty_world eq_refl eq_refl eq_refl
              Scenario.schedule st He) as [_ H].
  destruct (H Hret) as (Hcount & Hconcat & _).
  split; [exact He|]. split; [exact Hret|]. split; [exact Hbat|].
  split; [exact Hcount|exact Hconcat].
Defined.

(** Claim C5.  Batches run strictly one after the other: in every trace of
    [_copy_many], when a task starts, every task of an earlier batch (the
    task at position [id] belongs to batch [id / batch_size]) has already
    finished, with a result or with an exception. *)
Theorem copy_batches_in_sequence {R : Type} (copy_func : string → string → M R)
    (source_keys dest_keys : list string) (max_workers batch_size : Z) (w0 : world) :
  length source_keys = length dest_keys → 0 < max_workers → 0 < batch_size →
  ∀ sched st,
    S3Client._copy_many source_keys dest_keys copy_func max_workers batch_size
      sched w0 = Some st →
    ∀ later id' args' earlier,
      trace st = later ++ EvStart id' args' :: earlier →
      ∀ id : nat, (id < length source_keys)%nat →
        Z.of_nat id / batch_size < Z.of_nat id' / batch_size →
        ∃ exc, EvFinish id exc ∈ earlier.
Proof.
  intros Hlen Hmw Hb sched st He later id' args' earlier Htr id Hid Hlt.
  unfold S3Client._copy_many in He.
  assert (Hbsz : 0 < EngineFacts.batch_len (Copy batch_size) source_keys) by done.
  destruct (EngineFacts.invariants_reachable copy_func _ _ _ _ Hlen Hmw Hbsz _ _ _ He)
    as (_ & _ & [_ Hord]).
  eapply (EngineFacts.ordered_split (Copy batch_size) source_keys dest_keys);
    [exact Hord|exact Htr| |exact Hlt].
  pose proof (EngineFacts.length_requests source_keys dest_keys Hlen).
  unfold Engine.len in *. lia.
Qed.

Lemma copy_batches_in_sequence_witness :
  ∃ st later earlier,
    S3Client._copy_many Scenario.source_keys Scenario.dest_keys Scenario.copy_func 2 2
      Scenario.schedule empty_world = Some st
    ∧ trace st = later ++ EvStart 2 ("a/3.txt", "b/3.txt") :: earlier
    ∧ ∃ exc, EvFinish 1 exc ∈ earlier.
Proof.
  assert (∃ st later earlier,
    S3Client._copy_many Scenario.source_keys Scenario.dest_keys Scenario.copy_func 2 2
      Scenario.schedule empty_world = Some st
    ∧ trace st = later ++ EvStart 2 ("a/3.txt", "b/3.txt") :: earlier)
    as (st & later & earlier & He & Htr).
  { vm_compute. eexists. exists [EvGc; EvShutdown 2; EvFinish 2 None]. eexists.
    split; reflexivity. }
  exists st, later, earlier. split; [exact He|]. split; [exact Htr|].
  apply (copy_batches_in_sequence Scenario.copy_func Scenario.source_keys
           Scenario.dest_keys 2 2 empty_world eq_refl eq_refl eq_refl
           Scenario.schedule st He later 2%nat ("a/3.txt", "b/3.txt") earlier Htr 1%nat).
  - simpl. lia.
  - reflexivity.
Defined.

(** Claim C6.  At every point of every run of [_copy_many] and of
    [_download_many], the calls that have started and not yet finished are
    the busy threads of the pool, and they are at most [max_workers]; this
    holds for every number of requests, in particular for
    [N >= max_workers]. *)
Theorem worker_limit_respected {R : Type} (func : string → string → M R)
    (keys others : list string) (max_workers batch_size : Z) (w0 : world) :
  0 < max_workers →
  ∀ sched st,
    (S3Client._copy_many keys others func max_workers batch_size sched w0 = Some st
     ∨ S3Client._download_many keys others func max_workers sched w0 = Some st) →
    Engine.in_flight (trace st) = Z.of_nat (executing (pool st))
    ∧ Z.of_nat (executing (pool st)) ≤ max_workers.
Proof.
  intros Hmw sched st He.
  assert (∃ v, EngineFacts.pool_inv v max_workers st)
    as [v [Hgone Hcap Hths Hfl _]].
  { destruct He as [He|He]; eexists; eapply EngineFacts.pool_inv_reachable, He. }
  split; [done|].
  assert (Z.of_nat (length (_threads (pool st))) ≤ max_workers) as Hle.
  { destruct (Engine.in_batch (at_pc st)) eqn:Hpc.
    - destruct (Hcap eq_refl) as [Heq _]. lia.
    - rewrite (Hgone eq_refl). simpl. lia. }
  pose proof (EngineFacts.executing_le (_threads (pool st))). unfold executing. lia.
Qed.

Lemma worker_limit_respected_witness :
  ∃ st,
    S3Client._copy_many Scenario.source_keys Scenario.dest_keys Scenario.copy_func 2 2
      (take 7 Scenario.schedule) empty_world = Some st
    ∧ executing (pool st) = 2%nat
    ∧ Z.of_nat (executing (pool st)) ≤ 2.
Proof.
  assert (∃ st,
    S3Client._copy_many Scenario.source_keys Scenario.dest_keys Scenario.copy_func 2 2
      (take 7 Scenario.schedule) empty_world = Some st
    ∧ executing (pool st) = 2%nat) as (st & He & Hex).
  { vm_compute. eexists. split; reflexivity. }
  exists st. split; [exact He|]. split; [exact Hex|].
  apply (worker_limit_respected Scenario.copy_func Scenario.source_keys
           Scenario.dest_keys 2 2 empty_world eq_refl (take 7 Scenario.schedule) st).
  left. exact He.
Defined.

(** Claim C4, amended.  With lists of unequal length the first step of the
    call raises the [ValueError]; in every run the call is either not yet
    started or in that aborted state, where no pool exists, no future was
    created, the trace is empty and the world (the calls sent to the store)
    is untouched.  With lists of equal length, [max_workers > 0] and
    [batch_size > 0], an exception reaches the caller only in
    [_download_many], and only after the task that raised it has run: for
    positive sizes the length mismatch is the only abort before any work. *)
Theorem length_mismatch_aborts {R : Type} (func : string → string → M R)
    (v : variant) (keys others : list string) (max_workers : Z) (w0 : world) :
  let aborted := mkState (Raised (length_error v)) no_pool [] w0 [] in
  (length keys ≠ length others →
     exec func v keys others max_workers [Main] (init w0) = Some aborted
     ∧ ∀ sched st, exec func v keys others max_workers sched (init w0) = Some st →
         st = init w0 ∨ st = aborted)
  ∧ (length keys = length others → 0 < max_workers →
     (∀ batch_size, v = Copy batch_size → 0 < batch_size) →
     ∀ sched st e, exec func v keys others max_workers sched (init w0) = Some st →
       at_pc st = Raised e →
       v = Download ∧ ∃ id, EvFinish id (Some e) ∈ trace st).
Proof.
  intros aborted. split.
  - intros Hne.
    assert (Hfirst : ∀ c st, step func v keys others max_workers c (init w0) = Some st →
                             st = aborted).
    { intros [|j|t] st; simpl; unfold main_step, yield_step, worker_step; simpl;
        [|done..]. rewrite bool_decide_eq_true_2 by done. by intros [= <-]. }
    assert (Hstuck : ∀ c, step func v keys others max_workers c aborted = None).
    { by intros [|j|t]. }
    split.
    + simpl. unfold main_step; simpl. by rewrite bool_decide_eq_true_2.
    + intros [|c sched] st He; simpl in He; [left; by simplify_eq|right].
      destruct (step _ _ _ _ _ c (init w0)) as [st1|] eqn:Hs; [|done].
      apply Hfirst in Hs as ->. destruct sched as [|c' sched]; simpl in He.
      * by simplify_eq.
      * by rewrite Hstuck in He.
  - intros Hlen Hmw Hb sched st e He Hpc.
    assert (Hbsz : 0 < EngineFacts.batch_len v keys).
    { unfold EngineFacts.batch_len. destruct v as [b|]; [by apply Hb|lia]. }
    destruct (EngineFacts.invariants_reachable func _ _ _ _ Hlen Hmw Hbsz _ _ _ He)
      as (_ & _ & [Hinv _]).
    unfold EngineFacts.pc_inv in Hinv. rewrite Hpc in Hinv.
    by destruct Hinv as (Hv & _ & _ & Hid).
Qed.

Lemma length_mismatch_aborts_witness :
  exec Scenario.copy_func (Copy 2) ["a"; "b"; "c"; "d"; "e"] ["x"; "y"; "z"] 2 [Main]
       (init empty_world)
  = Some (mkState (Raised (ValueError "source_keys and dest_keys must be the same length"))
                  no_pool [] empty_world [])
  ∧ ∃ st e id,
      S3Client._download_many Scenario.source_keys Scenario.dest_keys Scenario.raw_download 2
        Scenario.download_schedule empty_world = Some st
      ∧ at_pc st = Raised e ∧ EvFinish id (Some e) ∈ trace st.
Proof.
  split.
  - apply (length_mismatch_aborts Scenario.copy_func (Copy 2) ["a"; "b"; "c"; "d"; "e"]
             ["x"; "y"; "z"] 2 empty_world).
    simpl. lia.
  - assert (∃ st e,
      S3Client._download_many Scenario.source_keys Scenario.dest_keys Scenario.raw_download 2
        Scenario.download_schedule empty_world = Some st
      ∧ at_pc st = Raised e) as (st & e & He & Hpc).
    { vm_compute. eexists. eexists. split; reflexivity. }
    destruct (length_mismatch_aborts Scenario.raw_download Download Scenario.source_keys
                Scenario.dest_keys 2 empty_world) as [_ H].
    destruct (H eq_refl eq_refl ltac:(intros ? [=]) Scenario.download_schedule st e He Hpc)
      as [_ [id Hid]].
    exists st, e, id. split; [exact He|]. split; [exact Hpc|exact Hid].
Defined.

(** Claim C4 as it is worded fails in its last part: lists of equal
    length do not exclude an abort before any work.  With [batch_size = 0],
    [_copy_many] raises [ZeroDivisionError] when it computes [batch_count],
    and with [max_workers = 0] the constructor of the pool raises
    [ValueError]; in both cases no pool exists, no future was created, the
    trace is empty and the world is untouched. *)
Lemma equal_lengths_abort_before_work :
  length Scenario.source_keys = length Scenario.dest_keys
  ∧ S3Client._copy_many Scenario.source_keys Scenario.dest_keys Scenario.copy_func 2 0
      [Main] empty_world
    = Some (mkState (Raised (ZeroDivisionError "division by zero")) no_pool []
                    empty_world [])
  ∧ S3Client._download_many Scenario.source_keys Scenario.dest_keys Scenario.raw_download 0
      [Main] empty_world
    = Some (mkState (Raised (ValueError "max_workers must be greater than 0")) no_pool []
                    empty_world []).
Proof. split_and!; reflexivity. Qed.

(** Claim C2 fails for [_download_many]: [future.result()] is called
    outside any [try], so the exception of an item reaches the caller (after
    the other items have run, because leaving the [with] block waits for
    them).  Here the second of three items raises. *)
Theorem download_many_reraises :
  outcome_of (S3Client._download_many Scenario.source_keys Scenario.dest_keys
                Scenario.raw_download 2 Scenario.download_schedule empty_world)
  = Some (Raised (ClientError "NoSuchKey"),
          [EvPool 0; EvSubmit 0 ("a/1.txt", "b/1.txt"); EvSubmit 1 ("a/2.txt", "b/2.txt");
           EvSubmit 2 ("a/3.txt", "b/3.txt"); EvStart 0 ("a/1.txt", "b/1.txt");
           EvStart 1 ("a/2.txt", "b/2.txt"); EvFinish 0 None;
           EvFinish 1 (Some (ClientError "NoSuchKey"));
           EvStart 2 ("a/3.txt", "b/3.txt"); EvFinish 2 None; EvShutdown 0],
          []).
Proof. vm_compute. reflexivity. Qed.

(** [_copy_many] never hands an exception to its caller. *)
Lemma copy_many_never_raises {R : Type} (copy_func : string → string → M R)
    (source_keys dest_keys : list string) (max_workers batch_size : Z) (w0 : world) :
  length source_keys = length dest_keys → 0 < max_workers → 0 < batch_size →
  ∀ sched st e,
    S3Client._copy_many source_keys dest_keys copy_func max_workers batch_size
      sched w0 = Some st →
    at_pc st ≠ Raised e.
Proof.
  intros Hlen Hmw Hb sched st e He Hpc. unfold S3Client._copy_many in He.
  assert (Hbsz : 0 < EngineFacts.batch_len (Copy batch_size) source_keys) by done.
  destruct (EngineFacts.invariants_reachable copy_func _ _ _ _ Hlen Hmw Hbsz _ _ _ He)
    as (_ & _ & [Hinv _]).
  unfold EngineFacts.pc_inv in Hinv. rewrite Hpc in Hinv. by destruct Hinv.
Qed.

(** The same items through [_copy_many]: the error is printed and the call
    returns. *)
Lemma copy_many_swallows :
  outcome_of (S3Client._copy_many Scenario.source_keys Scenario.dest_keys
                Scenario.raw_copy 2 2 Scenario.schedule empty_world)
  = Some (Returned,
          [EvPool 0; EvSubmit 0 ("a/1.txt", "b/1.txt"); EvSubmit 1 ("a/2.txt", "b/2.txt");
           EvStart 0 ("a/1.txt", "b/1.txt"); EvStart 1 ("a/2.txt", "b/2.txt");
           EvFinish 1 (Some (ClientError "NoSuchKey")); EvFinish 0 None;
           EvShutdown 0; EvGc; EvPool 2; EvSubmit 2 ("a/3.txt", "b/3.txt");
           EvStart 2 ("a/3.txt", "b/3.txt"); EvFinish 2 None; EvShutdown 2; EvGc],
          ["Error in copying: NoSuchKey"; "Finished batch copy 1/2";
           "Finished batch copy 1/2"]).
Proof. vm_compute. reflexivity. Qed.

(** Claim C3 fails for a batch size other than 1000: the ordinal in the
    progress line is computed as [int(i / 1000 + 1)], with the constant 1000
    where [batch_size] is meant.  With three requests in batches of two,
    the line after the second batch reads 1/2 again. *)
Theorem progress_ordinal_stuck :
  (λ st, reverse (stdout (w st)))
    <$> S3Client._copy_many Scenario.source_keys Scenario.dest_keys
          Scenario.copy_func 2 2 Scenario.schedule empty_world
  = Some ["Finished batch copy 1/2"; "Finished batch copy 1/2"].
Proof. vm_compute. reflexivity. Qed.

(** With the default batch size the ordinal is the right one. *)
Lemma progress_line_default (source_keys : list string) (K : Z) :
  progress_line source_keys (K * 1000) 1000
  = "Finished batch copy " +:+ pretty (K + 1) +:+ "/"
      +:+ pretty (batch_count source_keys 1000).
Proof. unfold progress_line. by rewrite Z.div_mul. Qed.

(** * Further properties of the single-item operations *)

(** Property X1.  [_move_object] does not look at the result of the copy:
    when the store refuses the copy with a [ClientError] and accepts the
    delete, the source object is deleted all the same and the call returns
    normally. *)
Theorem move_deletes_after_failed_copy (s3 : S3.client)
    (source_bucket dest_bucket : BaseEnum) (source_key dest_key : string) (w : world)
    (msg : string) (r : S3.response) :
  let copy := S3.copy_object (value dest_bucket) dest_key
                (value source_bucket, source_key) None None in
  let delete := S3.delete_object (value source_bucket) source_key in
  s3 (calls w) copy = Raise (ClientError msg) →
  s3 (copy :: calls w) delete = Return r →
  ∃ w', S3Client._move_object s3 source_bucket source_key dest_bucket dest_key w
        = (Return tt, w')
    ∧ calls w' = delete :: copy :: calls w.
Proof.
  intros copy delete Hcopy Hdelete.
  unfold S3Client._move_object, S3Client._copy_object, S3Client._delete_object,
    S3Client._get_bucket.
  run_M. fold copy. rewrite Hcopy. simpl. fold delete. rewrite Hdelete. simpl.
  eexists. split; reflexivity.
Qed.

Lemma move_deletes_after_failed_copy_witness :
  ∃ w', S3Client._move_object Scenario.store_missing Examples.bucket "a/2.txt"
          Examples.bucket "b/2.txt" empty_world = (Return tt, w')
    ∧ calls w' = [S3.delete_object "bucket" "a/2.txt";
                  S3.copy_object "bucket" "b/2.txt" ("bucket", "a/2.txt") None None].
Proof.
  apply (move_deletes_after_failed_copy Scenario.store_missing Examples.bucket
           Examples.bucket "a/2.txt" "b/2.txt" empty_world "NoSuchKey" S3.Empty);
    reflexivity.
Defined.

(** Property X2.  A local file that does not exist is not a store failure:
    [open] raises [FileNotFoundError], which the handler for [ClientError]
    lets through.  [_upload_file] raises it and leaves the world as it
    was, and so does [upload_file] when it is given a key; nothing is sent to
    the store. *)
Theorem upload_of_missing_file_raises (s3 : S3.client) (uuid4_hex time_time : nat → string)
    (_bucket : BaseEnum) (local_path s3_path : string) (dispo_name : option string)
    (w : world) :
  files w !! local_path = None →
  S3Client._upload_file s3 _bucket local_path s3_path dispo_name w
  = (Raise (OtherException "FileNotFoundError" local_path), w)
  ∧ (s3_path ≠ EmptyString →
     S3BucketClient.upload_file s3 uuid4_hex time_time _bucket local_path (Some s3_path)
       dispo_name w
     = (Raise (OtherException "FileNotFoundError" local_path), w)).
Proof.
  intros Hfile.
  assert (S3Client._upload_file s3 _bucket local_path s3_path dispo_name w
          = (Raise (OtherException "FileNotFoundError" local_path), w)) as Hup.
  { unfold S3Client._upload_file. run_M. by rewrite Hfile. }
  split; [done|]. intros Hkey.
  unfold S3BucketClient.upload_file, truthy.
  rewrite bool_decide_eq_false_2 by done. simpl.
  unfold mbind, M_bind, bind, mret, M_ret, ret. simpl. by rewrite Hup.
Qed.

Lemma upload_of_missing_file_raises_witness :
  S3Client._upload_file Examples.store_ok Examples.bucket "missing.pdf" "docs/missing.pdf"
    None Examples.disk
  = (Raise (OtherException "FileNotFoundError" "missing.pdf"), Examples.disk).
Proof.
  apply (upload_of_missing_file_raises Examples.store_ok Examples.uuid4_hex
           Examples.time_time Examples.bucket "missing.pdf" "docs/missing.pdf" None
           Examples.disk).
  reflexivity.
Defined.

(** Property X3.  A failure to set the disposition name does not fail the
    upload: when the store accepts the object and refuses the copy that sets
    [ContentDisposition], [_upload_bytes] and [_upload_file] still return
    [True]; the failure is only printed. *)
Theorem disposition_failure_is_silent (s3 : S3.client) (b : BaseEnum) (data : bytes)
    (local_path s3_path dispo_name : string) (w : world) (r : S3.response) (msg : string) :
  let upload := S3.upload_fileobj data (value b) s3_path in
  let dispo := S3.copy_object (value b) s3_path (value b, s3_path) (Some "REPLACE")
                 (Some ("attachment; filename=" +:+ dquote +:+ dispo_name +:+ dquote)) in
  let w' := mkWorld (dispo :: upload :: calls w)
                    (("Error setting disposition name: " +:+ msg) :: stdout w)
                    (files w) (draws w) in
  dispo_name ≠ EmptyString →
  s3 (calls w) upload = Return r →
  s3 (upload :: calls w) dispo = Raise (ClientError msg) →
  S3Client._upload_bytes s3 b data s3_path (Some dispo_name) w = (Return true, w')
  ∧ (files w !! local_path = Some data →
     S3Client._upload_file s3 b local_path s3_path (Some dispo_name) w = (Return true, w')).
Proof.
  intros upload dispo w' Hname Hup Hdispo.
  unfold S3Client._upload_bytes, S3Client._upload_file, S3Client._set_dispo_name,
    S3Client._get_bucket, truthy.
  rewrite bool_decide_eq_false_2 by done. run_M.
  fold upload. rewrite Hup. simpl. fold dispo. rewrite Hdispo. simpl.
  split; [done|]. intros ->. simpl. fold upload. rewrite Hup. simpl.
  fold dispo. by rewrite Hdispo.
Qed.

Lemma disposition_failure_is_silent_witness :
  (S3Client._upload_bytes Examples.store_no_copy Examples.bucket [] "docs/report.pdf"
     (Some "report.pdf") empty_world).1 = Return true.
Proof.
  pose proof (disposition_failure_is_silent Examples.store_no_copy Examples.bucket []
                "report.pdf" "docs/report.pdf" "report.pdf" empty_world S3.Empty
                "AccessDenied" ltac:(discriminate) eq_refl eq_refl) as [H _].
  rewrite H. reflexivity.
Defined.

(** Property X4.  The local file is opened for writing before the store
    is asked.  When [open] is refused, [_download_file] raises the [OSError]
    of [open]: nothing is sent to the store and the world is unchanged.  When
    the file is opened and the store refuses the download with a
    [ClientError], [_download_file] returns [False] and the local file is
    left empty, whatever it held before; [download_file] drops the [False]
    and returns normally. *)
Theorem failed_download_leaves_empty_file (s3 : S3.client)
    (refused : string → option string) (b : BaseEnum) (s3_path local_path : string)
    (w : world) :
  (∀ cls, refused local_path = Some cls →
     S3Client._download_file s3 refused b s3_path local_path w
     = (Raise (OtherException cls local_path), w)
     ∧ S3BucketClient.download_file s3 refused b s3_path local_path w
       = (Raise (OtherException cls local_path), w))
  ∧ (∀ msg, refused local_path = None →
     s3 (calls w) (S3.download_fileobj (value b) s3_path) = Raise (ClientError msg) →
     ∃ w', S3Client._download_file s3 refused b s3_path local_path w = (Return false, w')
       ∧ files w' = <[local_path := []]> (files w)
       ∧ S3BucketClient.download_file s3 refused b s3_path local_path w
         = (Return tt, w')).
Proof.
  unfold S3BucketClient.download_file, S3Client._download_file, S3Client._get_bucket,
    open_wb, write.
  run_M. split.
  - intros cls ->. done.
  - intros msg -> Hdown. simpl. rewrite Hdown. simpl. eexists. split_and!; reflexivity.
Qed.

Lemma failed_download_leaves_empty_file_witness :
  S3Client._download_file Examples.store_ok Examples.no_such_dir Examples.bucket
    "docs/report.pdf" "nowhere/report.pdf" Examples.full_disk
  = (Raise (OtherException "FileNotFoundError" "nowhere/report.pdf"), Examples.full_disk)
  ∧ ∃ w', S3Client._download_file Examples.store_denied Examples.no_such_dir
            Examples.bucket "docs/report.pdf" "report.pdf" Examples.full_disk
          = (Return false, w')
      ∧ files Examples.full_disk !! "report.pdf" = Some [Byte.x25; Byte.x50]
      ∧ files w' !! "report.pdf" = Some [].
Proof.
  split.
  - apply (failed_download_leaves_empty_file Examples.store_ok Examples.no_such_dir
             Examples.bucket "docs/report.pdf" "nowhere/report.pdf" Examples.full_disk).
    reflexivity.
  - destruct (failed_download_leaves_empty_file Examples.store_denied Examples.no_such_dir
                Examples.bucket "docs/report.pdf" "report.pdf" Examples.full_disk)
      as [_ H].
    destruct (H "AccessDenied" eq_refl eq_refl) as (w' & Hrun & Hfiles & _).
    exists w'. split; [exact Hrun|]. split; [reflexivity|].
    rewrite Hfiles. apply lookup_insert_eq.
Defined.

(** Property X5.  The facade drops the results of the gateway: on a store
    that reports its failures as [ClientError]s, [upload_file_obj] returns the
    key it was given and [set_dispo_name] returns normally, whether or not
    the store accepted the request, and so does [download_file] when the
    local path can be opened for writing. *)
Theorem facade_drops_results (s3 : S3.client) (refused : string → option string)
    (_bucket : BaseEnum) (data : bytes) (s3_path local_path dispo_name : string)
    (dispo : option string) (w : world) :
  S3.raises_only_ClientError s3 →
  (S3BucketClient.upload_file_obj s3 _bucket data s3_path dispo w).1 = Return s3_path
  ∧ (S3BucketClient.set_dispo_name s3 _bucket s3_path dispo_name w).1 = Return tt
  ∧ (refused local_path = None →
     (S3BucketClient.download_file s3 refused _bucket s3_path local_path w).1
     = Return tt).
Proof.
  intros Hstore.
  unfold S3BucketClient.upload_file_obj, S3BucketClient.set_dispo_name,
    S3BucketClient.download_file, S3Client._upload_bytes, S3Client._set_dispo_name,
    S3Client._download_file, S3Client._get_bucket, open_wb, write.
  run_M. split_and!.
  - destruct (s3 _ (S3.upload_fileobj _ _ _)) as [r|e] eqn:Hup; simpl;
      [|by destruct (Hstore _ _ _ Hup) as [msg ->]].
    destruct (truthy dispo); simpl; [|done].
    destruct (s3 _ (S3.copy_object _ _ _ _ _)) as [r'|e] eqn:Hcp; simpl; [done|].
    by destruct (Hstore _ _ _ Hcp) as [msg ->].
  - destruct (s3 _ _) as [r|e] eqn:Hcp; simpl; [done|].
    by destruct (Hstore _ _ _ Hcp) as [msg ->].
  - intros ->. simpl. destruct (s3 _ _) as [[]|e] eqn:Hdl; simpl; try done.
    by destruct (Hstore _ _ _ Hdl) as [msg ->].
Qed.

Lemma facade_drops_results_witness :
  ((S3BucketClient.upload_file_obj Examples.store_denied Examples.bucket []
      "docs/report.pdf" None empty_world).1 = Return "docs/report.pdf"
   ∧ (S3BucketClient.download_file Examples.store_denied Examples.opens_all
        Examples.bucket "docs/report.pdf" "report.pdf" empty_world).1 = Return tt)
  ∧ (S3Client._upload_bytes Examples.store_denied Examples.bucket [] "docs/report.pdf"
       None empty_world).1 = Return false.
Proof.
  split; [|reflexivity].
  destruct (facade_drops_results Examples.store_denied Examples.opens_all Examples.bucket
              [] "docs/report.pdf" "report.pdf" "report.pdf" None empty_world)
    as (Hup & _ & Hdown).
  - intros h c e H. injection H as <-. eexists. reflexivity.
  - split; [exact Hup|]. apply Hdown. reflexivity.
Defined.

(** Property X19.  The handlers name [ClientError] only.  An exception
    of another class raised by the store (a connection failure, for one, is
    not a [ClientError]) leaves every single-item operation as it is
    ([_download_file] when the local path can be opened, so that the store is
    asked), and [_move_object] then stops after the copy: the source is not
    deleted. *)
Theorem other_exceptions_pass_through (s3 : S3.client) (refused : string → option string)
    (b b' : BaseEnum) (k k' local_path dispo_name : string) (data : bytes)
    (dispo : option string) (w : world) (e : exn) :
  (∀ msg, e ≠ ClientError msg) →
  (∀ history c, s3 history c = Raise e) →
  (S3Client._upload_bytes s3 b data k dispo w).1 = Raise e
  ∧ (refused local_path = None →
     (S3Client._download_file s3 refused b k local_path w).1 = Raise e)
  ∧ (S3Client._list_keys_of_prefix s3 b k w).1 = Raise e
  ∧ (S3Client._delete_object s3 b k w).1 = Raise e
  ∧ (S3Client._copy_object s3 b k b' k' w).1 = Raise e
  ∧ (S3Client._key_exists s3 b k w).1 = Raise e
  ∧ (S3Client._get_file_obj s3 b k w).1 = Raise e
  ∧ (S3Client._set_dispo_name s3 b k dispo_name w).1 = Raise e
  ∧ S3Client._move_object s3 b k b' k' w
    = (Raise e, log_call (S3.copy_object (value b') k' (value b, k) None None) w).
Proof.
  intros Hclass Hstore.
  unfold S3Client._upload_bytes, S3Client._download_file, S3Client._list_keys_of_prefix,
    S3Client._delete_object, S3Client._move_object, S3Client._copy_object,
    S3Client._key_exists, S3Client._get_file_obj, S3Client._set_dispo_name,
    S3Client._get_bucket, open_wb, write.
  run_M. rewrite !Hstore.
  destruct e as [msg| | |]; [by destruct (Hclass msg)|..].
  all: split_and!; try done.
  all: intros ->; simpl; by rewrite Hstore.
Qed.

Lemma other_exceptions_pass_through_witness :
  (S3Client._key_exists Examples.store_unreachable Examples.bucket "a/1.txt" empty_world).1
    = Raise (OtherException "EndpointConnectionError" "Could not connect")
  ∧ calls (S3Client._move_object Examples.store_unreachable Examples.bucket "a/1.txt"
             Examples.bucket "b/1.txt" empty_world).2
    = [S3.copy_object "bucket" "b/1.txt" ("bucket", "a/1.txt") None None].
Proof.
  destruct (other_exceptions_pass_through Examples.store_unreachable Examples.opens_all
              Examples.bucket Examples.bucket "a/1.txt" "b/1.txt" "1.txt" "1.txt" [] None
              empty_world (OtherException "EndpointConnectionError" "Could not connect")
              ltac:(discriminate) ltac:(reflexivity))
    as (_ & _ & _ & _ & _ & Hexists & _ & _ & Hmove).
  split; [exact Hexists|]. rewrite Hmove. reflexivity.
Defined.

(** * The generated key and the paths of a prefix download *)

Lemma list_of_append (a b : string) :
  String.list_ascii_of_string (a +:+ b)
  = String.list_ascii_of_string a ++ String.list_ascii_of_string b.
Proof. induction a as [|c a IH]; simpl; [done|]. by rewrite IH. Qed.

Lemma string_of_app (l k : list ascii) :
  String.string_of_list_ascii (l ++ k)
  = String.string_of_list_ascii l +:+ String.string_of_list_ascii k.
Proof. induction l as [|c l IH]; simpl; [done|]. by rewrite IH. Qed.

Lemma rfind_from_app c a b i f :
  Path.rfind_from c (a ++ b) i f
  = Path.rfind_from c b (i + Z.of_nat (length a)) (Path.rfind_from c a i f).
Proof.
  revert i f. induction a as [|x a IH]; intros i f; simpl.
  - by rewrite Z.add_0_r.
  - rewrite IH. f_equal. lia.
Qed.

Lemma rfind_from_notin c l i f : (c ∉ l) → Path.rfind_from c l i f = f.
Proof.
  revert i f. induction l as [|x l IH]; intros i f Hn; simpl; [done|].
  apply not_elem_of_cons in Hn as [Hx Hl].
  rewrite bool_decide_eq_false_2 by (by intros ->). by apply IH.
Qed.

Lemma rfind_split c a b : (c ∉ b) → Path.rfind c (a ++ c :: b) = Z.of_nat (length a).
Proof.
  intros Hb. unfold Path.rfind. rewrite rfind_from_app. simpl.
  rewrite bool_decide_eq_true_2 by done. rewrite rfind_from_notin by done. lia.
Qed.

(** [p.rfind(c)] is [-1] when [c] does not occur, and the position of its
    last occurrence otherwise. *)
Lemma rfind_cases c l :
  ((c ∉ l) ∧ Path.rfind c l = -1)
  ∨ (∃ a b, l = a ++ c :: b ∧ (c ∉ b) ∧ Path.rfind c l = Z.of_nat (length a)).
Proof.
  destruct (decide (c ∈ l)) as [Hin|Hn].
  - right. apply list_elem_of_split_r in Hin as (a & b & -> & Hb).
    exists a, b. split_and!; [done|done|by apply rfind_split].
  - left. split; [done|]. by apply rfind_from_notin.
Qed.

Lemma drop_after {A} (x : A) (a b : list A) : drop (S (length a)) (a ++ x :: b) = b.
Proof. by rewrite cons_middle, app_assoc, drop_app_length' by (rewrite length_app; simpl; lia). Qed.

(** The extension is empty, or it is what follows the last dot of the
    path, the dot included, and holds no slash. *)
Lemma splitext_ext_cases (p : string) :
  Path.splitext_ext p = EmptyString
  ∨ ∃ a rest, String.list_ascii_of_string p = a ++ Path.dot :: rest
      ∧ (Path.dot ∉ rest) ∧ (Path.sep ∉ rest)
      ∧ Path.splitext_ext p = String Path.dot (String.string_of_list_ascii rest).
Proof.
  unfold Path.splitext_ext.
  set (l := String.list_ascii_of_string p).
  case_bool_decide as Hlt; [|by left].
  destruct (existsb _ _); [|by left]. right.
  destruct (rfind_cases Path.dot l) as [[_ Hd]|(a & rest & Hl & Hrest & Hd)].
  { destruct (rfind_cases Path.sep l) as [[_ Hs]|(a' & b' & _ & _ & Hs)]; lia. }
  exists a, rest. rewrite Hd, Nat2Z.id. split_and!; [done|done| |].
  - destruct (rfind_cases Path.sep l) as [[Hs _]|(a' & b' & Hl' & Hb' & Hs)].
    + intros Hin. apply Hs. rewrite Hl. set_solver.
    + intros Hin. apply Hb'.
      assert (rest `suffix_of` b') as Hsuf; [|by eapply elem_of_suffix].
      rewrite <-(drop_after Path.dot a rest), <-Hl, <-(drop_after Path.sep a' b'), <-Hl'.
      replace (S (length a)) with (S (length a') + (length a - length a'))%nat by lia.
      rewrite <-drop_drop. apply suffix_drop.
  - rewrite Hl, drop_app_length. done.
Qed.

Lemma append_empty_r (s : string) : s +:+ EmptyString = s.
Proof.
  induction s as [|c s IH]; [done|].
  change (String c (s +:+ EmptyString) = String c s). by rewrite IH.
Qed.

Lemma append_assoc (a b c : string) : (a +:+ b) +:+ c = a +:+ (b +:+ c).
Proof.
  induction a as [|x a IH]; [done|].
  change (String x ((a +:+ b) +:+ c) = String x (a +:+ (b +:+ c))). by rewrite IH.
Qed.

Lemma list_of_remove_dots (s : string) :
  String.list_ascii_of_string (Path.remove_dots s)
  = filter (λ c, c ≠ Path.dot) (String.list_ascii_of_string s).
Proof. unfold Path.remove_dots. by rewrite String.list_ascii_of_string_of_list_ascii. Qed.

Lemma splitext_ext_suffix (p : string) : ∃ root, p = root +:+ Path.splitext_ext p.
Proof.
  destruct (splitext_ext_cases p) as [->|(a & rest & Hl & _ & _ & ->)].
  - exists p. by rewrite append_empty_r.
  - exists (String.string_of_list_ascii a).
    change (String Path.dot (String.string_of_list_ascii rest))
      with (String.string_of_list_ascii (Path.dot :: rest)).
    by rewrite <-string_of_app, <-Hl, String.string_of_list_ascii_of_string.
Qed.

Lemma filter_eq_notin (c : ascii) (l : list ascii) :
  (c ∉ l) → filter (λ x, x = c) l = [].
Proof.
  induction l as [|x l IH]; intros Hn; [done|].
  apply not_elem_of_cons in Hn as [Hx Hl].
  rewrite filter_cons_False by (by intros ->). by apply IH.
Qed.

(** Property X6.  [gen_s3_path] draws one value from [uuid] and [time]
    and sends nothing to the store.  The key it returns is a part without
    dots followed by the extension of [filename]: the extension is a suffix of
    [filename] that is empty or starts with a dot and holds no other dot and
    no slash, so the key holds at most one dot.  The method of the base class
    is the same. *)
Theorem generated_key_shape (uuid4_hex time_time : nat → string) (filename : string)
    (w : world) :
  let hash := Path.remove_dots (uuid4_hex (draws w) +:+ time_time (draws w)) in
  let ext := Path.splitext_ext filename in
  let key := hash +:+ ext in
  S3BucketClient.gen_s3_path uuid4_hex time_time filename w = (Return key, tick w)
  ∧ S3Client.gen_s3_path uuid4_hex time_time filename w = (Return key, tick w)
  ∧ (Path.dot ∉ String.list_ascii_of_string hash)
  ∧ (∃ root, filename = root +:+ ext)
  ∧ (ext = EmptyString
     ∨ ∃ rest, ext = String Path.dot rest
         ∧ (Path.dot ∉ String.list_ascii_of_string rest)
         ∧ (Path.sep ∉ String.list_ascii_of_string rest))
  ∧ (length (filter (λ c, c = Path.dot) (String.list_ascii_of_string key)) ≤ 1)%nat.
Proof.
  intros hash ext key.
  assert (Hhash : Path.dot ∉ String.list_ascii_of_string hash).
  { unfold hash. rewrite list_of_remove_dots. by intros [Hne _]%list_elem_of_filter. }
  assert (Hext : ext = EmptyString
     ∨ ∃ rest, ext = String Path.dot rest
         ∧ (Path.dot ∉ String.list_ascii_of_string rest)
         ∧ (Path.sep ∉ String.list_ascii_of_string rest)).
  { destruct (splitext_ext_cases filename) as [?|(a & rest & _ & Hd & Hs & Hx)]; [by left|].
    right. exists (String.string_of_list_ascii rest).
    by rewrite String.list_ascii_of_string_of_list_ascii. }
  split_and!; [done|done|done|apply splitext_ext_suffix|done|].
  unfold key. rewrite list_of_append, filter_app, length_app, filter_eq_notin by done.
  destruct Hext as [->|(rest & -> & Hd & _)]; [simpl; lia|].
  change (String.list_ascii_of_string (String Path.dot rest))
    with (Path.dot :: String.list_ascii_of_string rest).
  rewrite filter_cons_True by done. rewrite filter_eq_notin by done. simpl. lia.
Qed.

(** Property X7.  The extension of the generated key is the extension of
    [filename], when the drawn uuid and time hold a character other than a
    dot and no slash (a uuid is 32 hexadecimal digits, a time is digits and
    one dot). *)
Theorem generated_key_keeps_extension (uuid4_hex time_time : nat → string)
    (filename : string) (w : world) (key : string) (w' : world) :
  let drawn := String.list_ascii_of_string (uuid4_hex (draws w) +:+ time_time (draws w)) in
  (∃ c, c ∈ drawn ∧ c ≠ Path.dot) →
  (Path.sep ∉ drawn) →
  S3BucketClient.gen_s3_path uuid4_hex time_time filename w = (Return key, w') →
  Path.splitext_ext key = Path.splitext_ext filename.
Proof.
  intros drawn (c & Hc & Hcd) Hsep [= <- _].
  set (hash := Path.remove_dots _).
  assert (Hl : String.list_ascii_of_string hash = filter (λ c, c ≠ Path.dot) drawn)
    by apply list_of_remove_dots.
  assert (Hdot : Path.dot ∉ String.list_ascii_of_string hash).
  { rewrite Hl. by intros [Hne _]%list_elem_of_filter. }
  assert (Hs : Path.sep ∉ String.list_ascii_of_string hash).
  { rewrite Hl. by intros [_ ?]%list_elem_of_filter. }
  assert (Hc' : c ∈ String.list_ascii_of_string hash).
  { rewrite Hl. by apply list_elem_of_filter. }
  destruct (splitext_ext_cases filename) as [->|(a & rest & _ & Hd & Hr & ->)].
  - rewrite append_empty_r. unfold Path.splitext_ext.
    destruct (rfind_cases Path.dot (String.list_ascii_of_string hash))
      as [[_ ->]|(? & ? & Heq & _)]; [|rewrite Heq in Hdot; set_solver].
    destruct (rfind_cases Path.sep (String.list_ascii_of_string hash))
      as [[_ ->]|(? & ? & Heq & _)]; [|rewrite Heq in Hs; set_solver].
    done.
  - unfold Path.splitext_ext at 1.
    change (String Path.dot (String.string_of_list_ascii rest))
      with (String.string_of_list_ascii (Path.dot :: rest)).
    rewrite list_of_append, String.list_ascii_of_string_of_list_ascii.
    rewrite rfind_split by done.
    destruct (rfind_cases Path.sep (String.list_ascii_of_string hash ++ Path.dot :: rest))
      as [[_ ->]|(? & ? & Heq & _)].
    2:{ assert (Path.sep ∈ String.list_ascii_of_string hash ++ Path.dot :: rest) as Hin
          by (rewrite Heq; set_solver).
        apply elem_of_app in Hin as [?|Hin]; [done|].
        apply elem_of_cons in Hin as [?|?]; done. }
    rewrite bool_decide_eq_true_2 by lia.
    unfold slice. change (-1 + 1) with 0. change (Z.to_nat 0) with 0%nat.
    rewrite Z.sub_0_r, Nat2Z.id, drop_0, take_app_length, drop_app_length.
    replace (existsb _ _) with true; [done|].
    symmetry. apply existsb_exists. exists c. split; [by apply list_elem_of_In|].
    unfold Path.is_dot. by rewrite bool_decide_eq_false_2.
Qed.

Lemma generated_key_keeps_extension_witness :
  Path.splitext_ext "0f8fad5bd9cb469fa16570867728950e170000000025.pdf"
  = Path.splitext_ext "report.v2.pdf".
Proof.
  apply (generated_key_keeps_extension Examples.uuid4_hex Examples.time_time "report.v2.pdf"
           empty_world "0f8fad5bd9cb469fa16570867728950e170000000025.pdf"
           (tick empty_world)).
  - exists "0"%char. split; [|done]. vm_compute. left.
  - vm_compute. intros H. repeat (apply elem_of_cons in H as [H|H]; [discriminate H|]).
    by apply elem_of_nil in H.
  - reflexivity.
Defined.

Lemma rstrip_nil (c : ascii) (l : list ascii) :
  Path.rstrip c l = [] ↔ forallb (λ x, bool_decide (x = c)) l = true.
Proof.
  induction l as [|x l IH]; simpl; [done|].
  destruct (Path.rstrip c l) as [|y r] eqn:Hr.
  - case_bool_decide; simpl; [by rewrite <-IH|done].
  - split; [done|]. intros [_ Hall]%andb_prop. by apply IH in Hall.
Qed.

Lemma rstrip_prefix (c : ascii) (l : list ascii) : Path.rstrip c l `prefix_of` l.
Proof.
  induction l as [|x l IH]; simpl; [done|].
  destruct (Path.rstrip c l) as [|y r].
  - case_bool_decide; [apply prefix_nil|]. apply prefix_cons, prefix_nil.
  - by apply prefix_cons.
Qed.

Lemma startswith_prefix (c : ascii) (d l : list ascii) :
  d `prefix_of` l → d ≠ [] → Path.startswith c d = Path.startswith c l.
Proof. intros [k ->] Hd. by destruct d. Qed.

Lemma startswith_app (c : ascii) (a b : string) :
  Path.startswith c (String.list_ascii_of_string a) = true →
  Path.startswith c (String.list_ascii_of_string (a +:+ b)) = true.
Proof. rewrite list_of_append. by destruct (String.list_ascii_of_string a). Qed.

(** [dirname] keeps the leading slash of an absolute path and adds none
    to a relative one. *)
Lemma dirname_startswith (p : string) :
  Path.startswith Path.sep (String.list_ascii_of_string (Path.dirname p))
  = Path.startswith Path.sep (String.list_ascii_of_string p).
Proof.
  unfold Path.dirname. set (l := String.list_ascii_of_string p).
  rewrite String.list_ascii_of_string_of_list_ascii.
  set (head := take _ l).
  assert (Hhead : head `prefix_of` l) by apply prefix_take.
  assert (Hne : Path.startswith Path.sep l = true → head ≠ []).
  { destruct l as [|x l'] eqn:Hl; [done|]. simpl. intros ->%bool_decide_eq_true.
    destruct (rfind_cases Path.sep (Path.sep :: l')) as [[Hn _]|(a & b & _ & _ & Hr)];
      [set_solver|].
    unfold head. rewrite Hr. replace (Z.to_nat (Z.of_nat (length a) + 1)) with (S (length a)) by lia.
    done. }
  destruct (negb (bool_decide (head = [])) && negb (forallb _ head)) eqn:Hc.
  - apply andb_prop in Hc as [_ Hall%negb_true_iff].
    assert (Path.rstrip Path.sep head ≠ []) as Hr.
    { intros Hr%rstrip_nil. congruence. }
    rewrite (startswith_prefix _ _ head (rstrip_prefix _ _) Hr).
    apply startswith_prefix; [done|]. intros ->. done.
  - destruct (decide (head = [])) as [Hnil|Hnn]; [|by apply startswith_prefix].
    rewrite Hnil. simpl. destruct (Path.startswith Path.sep l) eqn:Hs; [|done].
    by destruct (Hne eq_refl).
Qed.

Lemma basename_relative (p : string) :
  Path.startswith Path.sep (String.list_ascii_of_string (Path.basename p)) = false.
Proof.
  unfold Path.basename. rewrite String.list_ascii_of_string_of_list_ascii.
  assert (Path.sep ∉ drop (Z.to_nat (Path.rfind Path.sep (String.list_ascii_of_string p) + 1))
                       (String.list_ascii_of_string p)) as Hn.
  { destruct (rfind_cases Path.sep (String.list_ascii_of_string p))
      as [[Hn ->]|(a & b & Hl & Hb & ->)]; [done|].
    replace (Z.to_nat (Z.of_nat (length a) + 1)) with (S (length a)) by lia.
    by rewrite Hl, drop_after. }
  destruct (drop _ _) as [|x l]; [done|]. simpl.
  apply bool_decide_eq_false_2. intros ->. set_solver.
Qed.

Lemma join_absolute (a b : string) :
  Path.startswith Path.sep (String.list_ascii_of_string b) = true → Path.join a b = b.
Proof. unfold Path.join. by intros ->. Qed.

Lemma join_relative (a b : string) :
  Path.startswith Path.sep (String.list_ascii_of_string b) = false →
  ∃ rest, Path.join a b = a +:+ rest.
Proof. unfold Path.join. intros ->. destruct (_ || _); eauto. Qed.

(** Property X8.  [_download_prefix] cuts [len(s3_prefix)] characters off
    the key and joins the directory of the rest to [folder_path].  When the
    rest starts with a slash (the prefix was given without its final slash),
    [os.path.join] discards [folder_path]: the file is written to an absolute
    path that does not depend on [folder_path]. *)
Theorem download_prefix_leaves_folder (s3_prefix key folder_path folder_path' : string) :
  Path.startswith Path.sep
    (String.list_ascii_of_string (Path.drop_string (String.length s3_prefix) key)) = true →
  S3Client._download_prefix_local_path s3_prefix folder_path key
  = S3Client._download_prefix_local_path s3_prefix folder_path' key
  ∧ Path.startswith Path.sep
      (String.list_ascii_of_string
         (S3Client._download_prefix_local_path s3_prefix folder_path key)) = true.
Proof.
  intros Habs. unfold S3Client._download_prefix_local_path, S3Client._download_prefix_local_dir.
  rewrite <-dirname_startswith in Habs. rewrite !(join_absolute _ _ Habs).
  split; [done|].
  destruct (join_relative (Path.dirname (Path.drop_string (String.length s3_prefix) key))
              (Path.basename key) (basename_relative key)) as [rest ->].
  by apply startswith_app.
Qed.

Lemma download_prefix_leaves_folder_witness :
  (S3Client._download_prefix_local_path "data" "out" "data/x/report.txt"
   = S3Client._download_prefix_local_path "data" "elsewhere" "data/x/report.txt"
   ∧ Path.startswith Path.sep
       (String.list_ascii_of_string
          (S3Client._download_prefix_local_path "data" "out" "data/x/report.txt")) = true)
  ∧ S3Client._download_prefix_local_path "data" "out" "data/x/report.txt" = "/x/report.txt".
Proof.
  split; [|reflexivity].
  apply (download_prefix_leaves_folder "data" "data/x/report.txt" "out" "elsewhere").
  reflexivity.
Defined.

(** Property X9.  When the rest of the key does not start with a slash,
    the path of the local file starts with [folder_path]. *)
Theorem download_prefix_stays_in_folder (s3_prefix key folder_path : string) :
  Path.startswith Path.sep
    (String.list_ascii_of_string (Path.drop_string (String.length s3_prefix) key)) = false →
  ∃ rest, S3Client._download_prefix_local_path s3_prefix folder_path key
          = folder_path +:+ rest.
Proof.
  intros Hrel. unfold S3Client._download_prefix_local_path, S3Client._download_prefix_local_dir.
  rewrite <-dirname_startswith in Hrel.
  destruct (join_relative folder_path _ Hrel) as [rest1 ->].
  destruct (join_relative (folder_path +:+ rest1) (Path.basename key)
              (basename_relative key)) as [rest2 ->].
  exists (rest1 +:+ rest2). apply append_assoc.
Qed.

Lemma download_prefix_stays_in_folder_witness :
  ∃ rest, S3Client._download_prefix_local_path "data/" "out" "data/x/report.txt"
          = "out" +:+ rest
    ∧ S3Client._download_prefix_local_path "data/" "out" "data/x/report.txt"
      = "out/x/report.txt".
Proof.
  destruct (download_prefix_stays_in_folder "data/" "data/x/report.txt" "out" eq_refl)
    as [rest Hrest].
  exists rest. split; [exact Hrest|reflexivity].
Defined.

(** * Further properties of the batch engine *)

(** Property X10.  No interleaving of the calling thread and the workers
    goes on forever: a run of [_copy_many] or of [_download_many] over [N]
    requests takes at most [8 * N + 12] steps, whatever the per-item
    function, the sizes and the scheduler are. *)
Theorem batch_call_ends {R : Type} (func : string → string → M R)
    (keys others : list string) (max_workers batch_size : Z) (w0 : world)
    (sched : list choice) (st : state) :
  (S3Client._copy_many keys others func max_workers batch_size sched w0 = Some st
   ∨ S3Client._download_many keys others func max_workers sched w0 = Some st) →
  Z.of_nat (length sched) ≤ 8 * Z.of_nat (length keys) + 12.
Proof.
  unfold S3Client._copy_many, S3Client._download_many.
  assert (∀ v, measure v keys (init (R:=R) w0) = 8 * Z.of_nat (length keys) + 12) as Hinit.
  { intros v. unfold measure, pc_weight, Engine.len, init, executing. simpl. lia. }
  intros [He|He]; apply EngineFacts.exec_steps in He; rewrite Hinit in He.
  - pose proof (EngineFacts.measure_nonneg (Copy batch_size) keys st). lia.
  - pose proof (EngineFacts.measure_nonneg Download keys st). lia.
Qed.

Lemma batch_call_ends_witness :
  Z.of_nat (length Scenario.schedule) ≤ 8 * Z.of_nat (length Scenario.source_keys) + 12.
Proof.
  assert (∃ st,
    S3Client._copy_many Scenario.source_keys Scenario.dest_keys Scenario.copy_func 2 2
      Scenario.schedule empty_world = Some st) as [st He].
  { vm_compute. eexists. reflexivity. }
  apply (batch_call_ends Scenario.copy_func Scenario.source_keys Scenario.dest_keys 2 2
           empty_world Scenario.schedule st).
  left. exact He.
Defined.

(** Property X11.  When [_copy_many] or [_download_many] has returned or
    raised, its pool is gone and no call of the per-item function is still
    running: every call that was started has finished.  This holds for all
    arguments. *)
Theorem no_call_outlives_the_batch {R : Type} (func : string → string → M R)
    (keys others : list string) (max_workers batch_size : Z) (w0 : world)
    (sched : list choice) (st : state) :
  (S3Client._copy_many keys others func max_workers batch_size sched w0 = Some st
   ∨ S3Client._download_many keys others func max_workers sched w0 = Some st) →
  terminal st = true →
  pool st = no_pool ∧ in_flight (trace st) = 0.
Proof.
  intros He Hterm.
  assert (∃ v, EngineFacts.pool_inv v max_workers st) as [v [Hgone _ _ Hfl _]].
  { destruct He as [He|He]; eexists; eapply EngineFacts.pool_inv_reachable, He. }
  assert (in_batch (at_pc st) = false) as Hout.
  { unfold terminal in Hterm. by destruct (at_pc st). }
  rewrite Hfl, (Hgone Hout). done.
Qed.

Lemma no_call_outlives_the_batch_witness :
  ∃ st,
    S3Client._download_many Scenario.source_keys Scenario.dest_keys Scenario.raw_download 2
      Scenario.download_schedule empty_world = Some st
    ∧ at_pc st = Raised (ClientError "NoSuchKey")
    ∧ pool st = no_pool ∧ in_flight (trace st) = 0.
Proof.
  assert (∃ st,
    S3Client._download_many Scenario.source_keys Scenario.dest_keys Scenario.raw_download 2
      Scenario.download_schedule empty_world = Some st
    ∧ at_pc st = Raised (ClientError "NoSuchKey")) as (st & He & Hpc).
  { vm_compute. eexists. split; reflexivity. }
  exists st. split; [exact He|]. split; [exact Hpc|].
  apply (no_call_outlives_the_batch Scenario.raw_download Scenario.source_keys
           Scenario.dest_keys 2 0 empty_world Scenario.download_schedule st).
  - right. exact He.
  - unfold terminal. rewrite Hpc. reflexivity.
Defined.

(** Property X12.  For lists of equal length and [max_workers > 0], a run
    of [_download_many] can always be completed, and when it has returned or
    raised, all requests were submitted to one pool, in the order of the
    lists, and every one of them was started with its own key and path and
    ran to its end: an item that raises does not keep the others from
    running. *)
Theorem download_many_runs_every_item {R : Type} (download_func : string → string → M R)
    (keys local_paths : list string) (max_workers : Z) (w0 : world) :
  length keys = length local_paths → 0 < max_workers →
  ∀ sched st,
    S3Client._download_many keys local_paths download_func max_workers sched w0
      = Some st →
    (∃ sched' st',
        S3Client._download_many keys local_paths download_func max_workers
          (sched ++ sched') w0 = Some st'
        ∧ terminal st' = true)
    ∧ (terminal st = true →
       batches (trace st) = [zip keys local_paths]
       ∧ ∀ (id : nat) a, zip keys local_paths !! id = Some a →
           EvStart id a ∈ trace st ∧ ∃ exc, EvFinish id exc ∈ trace st).
Proof.
  intros Hlen Hmw sched st He. unfold S3Client._download_many in *.
  assert (Hbsz : 0 < EngineFacts.batch_len Download keys)
    by (unfold EngineFacts.batch_len; lia).
  split; [by eapply EngineFacts.completion|].
  intros Hterm.
  destruct (EngineFacts.invariants_reachable download_func _ _ _ _ Hlen Hmw Hbsz _ _ _ He)
    as (_ & _ & [Hpc _]).
  pose proof (EngineFacts.length_requests keys local_paths Hlen) as Hlr.
  assert (EngineFacts.first_batches Download keys local_paths 1 = [zip keys local_paths])
    as Hone.
  { unfold EngineFacts.first_batches, EngineFacts.batch_len, slice. simpl.
    change (Z.of_nat 0) with 0. rewrite Z.mul_0_l. change (Z.to_nat 0) with 0%nat.
    rewrite drop_0, take_ge; [done|]. unfold EngineFacts.requests, Engine.len in *. lia. }
  unfold EngineFacts.pc_inv, terminal in *.
  destruct (at_pc st); try done.
  - destruct Hpc as (Hdone & K & Hbat & _ & ->). rewrite Hbat, Hone. split; [done|].
    intros id a Ha. apply (Hdone id a Ha). apply lookup_lt_Some in Ha.
    unfold EngineFacts.requests in *. lia.
  - destruct Hpc as (_ & Hdone & Hbat & _). rewrite Hbat, Hone. split; [done|].
    intros id a Ha. apply (Hdone id a Ha). apply lookup_lt_Some in Ha.
    unfold EngineFacts.requests in *. lia.
Qed.

Lemma download_many_runs_every_item_witness :
  ∃ st,
    S3Client._download_many Scenario.source_keys Scenario.dest_keys Scenario.raw_download 2
      Scenario.download_schedule empty_world = Some st
    ∧ at_pc st = Raised (ClientError "NoSuchKey")
    ∧ EvStart 2 ("a/3.txt", "b/3.txt") ∈ trace st
    ∧ ∃ exc, EvFinish 2 exc ∈ trace st.
Proof.
  assert (∃ st,
    S3Client._download_many Scenario.source_keys Scenario.dest_keys Scenario.raw_download 2
      Scenario.download_schedule empty_world = Some st
    ∧ at_pc st = Raised (ClientError "NoSuchKey")) as (st & He & Hpc).
  { vm_compute. eexists. split; reflexivity. }
  exists st. split; [exact He|]. split; [exact Hpc|].
  destruct (download_many_runs_every_item Scenario.raw_download Scenario.source_keys
              Scenario.dest_keys 2 empty_world eq_refl eq_refl
              Scenario.download_schedule st He) as [_ H].
  destruct H as [_ H]; [unfold terminal; rewrite Hpc; reflexivity|].
  apply (H 2%nat ("a/3.txt", "b/3.txt")). reflexivity.
Defined.

(** Property X13.  An exception that [_download_many] hands to its caller
    is its own [ValueError] for lists of unequal length, the [ValueError] of
    the pool for [max_workers <= 0], or was raised by [download_func] on one
    of the requests.  So, for lists of equal length and [max_workers > 0],
    when [download_func] never raises, every completed run has returned. *)
Theorem download_many_exception_origin {R : Type}
    (download_func : string → string → M R) (keys local_paths : list string)
    (max_workers : Z) (w0 : world) (sched : list choice) (st : state) :
  S3Client._download_many keys local_paths download_func max_workers sched w0
    = Some st →
  (∀ e, at_pc st = Raised e →
     (length keys ≠ length local_paths
      ∧ e = ValueError "keys and local_paths must be the same length")
     ∨ (length keys = length local_paths ∧ max_workers ≤ 0
        ∧ e = ValueError "max_workers must be greater than 0")
     ∨ (length keys = length local_paths ∧ 0 < max_workers
        ∧ ∃ (id : nat) a w1, zip keys local_paths !! id = Some a
            ∧ (download_func a.1 a.2 w1).1 = Raise e))
  ∧ (length keys = length local_paths → 0 < max_workers →
     (∀ key local_path w1, raised (download_func key local_path w1).1 = false) →
     terminal st = true → at_pc st = Returned).
Proof.
  intros He. unfold S3Client._download_many in *.
  assert (Hitem : length keys = length local_paths → 0 < max_workers →
    ∀ e, at_pc st = Raised e →
      ∃ (id : nat) a w1, zip keys local_paths !! id = Some a
        ∧ (download_func a.1 a.2 w1).1 = Raise e).
  { intros Hlen Hmw e Hat.
    assert (Hbsz : 0 < EngineFacts.batch_len Download keys)
      by (unfold EngineFacts.batch_len; lia).
    destruct (EngineFacts.invariants_reachable download_func _ _ _ _ Hlen Hmw Hbsz
                _ _ _ He) as (_ & _ & [Hpc _]).
    pose proof (EngineFacts.finish_sound_reachable download_func _ _ _ _ Hlen Hmw Hbsz
                  _ _ _ He) as Hsound.
    unfold EngineFacts.pc_inv in Hpc. rewrite Hat in Hpc.
    destruct Hpc as (_ & _ & _ & id & Hid).
    destruct (Hsound id (Some e) Hid) as (a & w1 & Ha & Hexc).
    exists id, a, w1. split; [done|].
    destruct (download_func a.1 a.2 w1).1; by simplify_eq/=. }
  split.
  - intros e Hat.
    destruct (decide (length keys = length local_paths)) as [Hlen|Hne].
    + destruct (Z_lt_ge_dec 0 max_workers) as [Hmw|Hmw].
      * right. right. split_and!; [done|done|by apply Hitem].
      * right. left. split_and!; [done|lia|].
        destruct (EngineFacts.refused_reachable download_func Download keys local_paths
                    max_workers w0 sched st eq_refl Hlen ltac:(lia) He) as [->| ->];
          simpl in Hat; by simplify_eq.
    + left. split; [done|].
      destruct (EngineFacts.mismatch_reachable download_func Download keys local_paths
                  max_workers w0 sched st Hne He) as [->| ->];
        simpl in Hat; by simplify_eq.
  - intros Hlen Hmw Hnever Hterm. unfold terminal in Hterm.
    destruct (at_pc st) eqn:Hat; try done.
    destruct (Hitem Hlen Hmw e eq_refl) as (id & a & w1 & _ & Hraise).
    specialize (Hnever a.1 a.2 w1). by rewrite Hraise in Hnever.
Qed.

Lemma download_many_exception_origin_witness :
  ∃ st (id : nat) a w1,
    S3Client._download_many Scenario.source_keys Scenario.dest_keys Scenario.raw_download 2
      Scenario.download_schedule empty_world = Some st
    ∧ at_pc st = Raised (ClientError "NoSuchKey")
    ∧ zip Scenario.source_keys Scenario.dest_keys !! id = Some a
    ∧ (Scenario.raw_download a.1 a.2 w1).1 = Raise (ClientError "NoSuchKey").
Proof.
  assert (∃ st,
    S3Client._download_many Scenario.source_keys Scenario.dest_keys Scenario.raw_download 2
      Scenario.download_schedule empty_world = Some st
    ∧ at_pc st = Raised (ClientError "NoSuchKey")) as (st & He & Hpc).
  { vm_compute. eexists. split; reflexivity. }
  destruct (download_many_exception_origin Scenario.raw_download Scenario.source_keys
              Scenario.dest_keys 2 empty_world Scenario.download_schedule st He)
    as [H _].
  destruct (H _ Hpc) as [[Hne _]|[(_ & Hmw & _)|(_ & _ & id & a & w1 & Ha & Hraise)]].
  - destruct (Hne eq_refl).
  - destruct (Hmw eq_refl).
  - exists st, id, a, w1. split; [exact He|]. split; [exact Hpc|].
    split; [exact Ha|exact Hraise].
Defined.

(** Property X14.  The engine calls the per-item function exactly once
    for every request.  When each call of the function sends one request to
    the store, then, for lists of equal length and positive sizes, once
    [_copy_many] or [_download_many] has returned or raised the store has
    received, after the calls made before, exactly one request for every
    pair of the lists, in some order. *)
Theorem batch_sends_each_request_once {R : Type} (func : string → string → M R)
    (req : string → string → S3.call) (keys others : list string)
    (max_workers batch_size : Z) (w0 : world) :
  (∀ s d w1, calls (func s d w1).2 = req s d :: calls w1) →
  length keys = length others → 0 < max_workers → 0 < batch_size →
  ∀ sched st,
    (S3Client._copy_many keys others func max_workers batch_size sched w0 = Some st
     ∨ S3Client._download_many keys others func max_workers sched w0 = Some st) →
    terminal st = true →
    calls (w st) ≡ₚ ((λ a, req a.1 a.2) <$> zip keys others) ++ calls w0.
Proof.
  intros Hreq Hlen Hmw Hb sched st He Hterm.
  assert (EngineFacts.sent keys others req (calls w0) st) as Hsent.
  { unfold S3Client._copy_many, S3Client._download_many in He.
    destruct He as [He|He].
    - exact (EngineFacts.sent_reachable func (Copy batch_size) keys others max_workers
               Hlen Hmw Hb req Hreq sched w0 st He).
    - refine (EngineFacts.sent_reachable func Download keys others max_workers
                Hlen Hmw _ req Hreq sched w0 st He).
      unfold EngineFacts.batch_len. lia. }
  unfold EngineFacts.sent, terminal in *. by destruct (at_pc st).
Qed.

Lemma batch_sends_each_request_once_witness :
  ∃ st,
    S3Client._download_many Scenario.source_keys Scenario.dest_keys Scenario.raw_download 2
      Scenario.download_schedule empty_world = Some st
    ∧ calls (w st) ≡ₚ [S3.download_fileobj "bucket" "a/1.txt";
                       S3.download_fileobj "bucket" "a/2.txt";
                       S3.download_fileobj "bucket" "a/3.txt"].
Proof.
  assert (∃ st,
    S3Client._download_many Scenario.source_keys Scenario.dest_keys Scenario.raw_download 2
      Scenario.download_schedule empty_world = Some st
    ∧ terminal st = true) as (st & He & Hterm).
  { vm_compute. eexists. split; reflexivity. }
  exists st. split; [exact He|].
  refine (batch_sends_each_request_once Scenario.raw_download
            (λ key _, S3.download_fileobj "bucket" key) Scenario.source_keys
            Scenario.dest_keys 2 1 empty_world _ eq_refl eq_refl eq_refl
            Scenario.download_schedule st (or_intror He) Hterm).
  intros s d w1. unfold Scenario.raw_download, mbind, M_bind, bind, request. cbv beta.
  destruct (Scenario.store_missing (calls w1) (S3.download_fileobj "bucket" s));
    reflexivity.
Defined.

Lemma copy_object_sends_one_request (s3 : S3.client) (_bucket : BaseEnum)
    (source_key dest_key : string) (w1 : world) :
  calls (S3BucketClient.copy_object s3 _bucket source_key dest_key w1).2
  = S3.copy_object (value _bucket) dest_key (value _bucket, source_key) None None
      :: calls w1.
Proof.
  unfold S3BucketClient.copy_object, S3Client._copy_object, S3Client._get_bucket.
  run_M. by destruct (s3 _ _) as [r|[]].
Qed.

(** Property X15.  [copy_many] of the bucket client, on any store, for
    lists of equal length and [max_workers > 0]: every run can be completed,
    none hands an exception to the caller, and once the call has returned
    the store has received exactly one [copy_object] request for every pair
    of keys, from and to the bucket of the client, in some order. *)
Theorem copy_many_copies_each_pair_once (s3 : S3.client) (_bucket : BaseEnum)
    (source_keys dest_keys : list string) (max_workers : Z) (w0 : world) :
  length source_keys = length dest_keys → 0 < max_workers →
  ∀ sched st,
    S3BucketClient.copy_many s3 _bucket source_keys dest_keys max_workers sched w0
      = Some st →
    (∃ sched' st',
        S3BucketClient.copy_many s3 _bucket source_keys dest_keys max_workers
          (sched ++ sched') w0 = Some st'
        ∧ at_pc st' = Returned)
    ∧ (∀ e, at_pc st ≠ Raised e)
    ∧ (at_pc st = Returned →
       calls (w st)
       ≡ₚ ((λ a, S3.copy_object (value _bucket) a.2 (value _bucket, a.1) None None)
             <$> zip source_keys dest_keys) ++ calls w0).
Proof.
  intros Hlen Hmw sched st He.
  unfold S3BucketClient.copy_many, S3Client._copy_many in *.
  set (copy_func := S3BucketClient.copy_object s3 _bucket) in *.
  assert (Hbsz : 0 < EngineFacts.batch_len (Copy S3Client.default_batch_size) source_keys)
    by done.
  assert (Hnever : ∀ sched' st' e,
    exec copy_func (Copy S3Client.default_batch_size) source_keys dest_keys max_workers
      sched' (init w0) = Some st' → at_pc st' ≠ Raised e).
  { intros sched' st' e He' Hat.
    destruct (EngineFacts.invariants_reachable copy_func _ _ _ _ Hlen Hmw Hbsz _ _ _ He')
      as (_ & _ & [Hpc _]).
    unfold EngineFacts.pc_inv in Hpc. rewrite Hat in Hpc. by destruct Hpc. }
  split_and!.
  - destruct (EngineFacts.completion copy_func _ _ _ _ Hlen Hmw Hbsz sched w0 st He)
      as (sched' & st' & He' & Hterm).
    exists sched', st'. split; [done|].
    unfold terminal in Hterm. destruct (at_pc st') eqn:Hat; try done.
    by destruct (Hnever _ _ e He').
  - intros e. by eapply Hnever.
  - intros Hat.
    pose proof (EngineFacts.sent_reachable copy_func _ _ _ _ Hlen Hmw Hbsz
                  (λ s d, S3.copy_object (value _bucket) d (value _bucket, s) None None)
                  (copy_object_sends_one_request s3 _bucket) _ _ _ He) as Hsent.
    unfold EngineFacts.sent in Hsent. by rewrite Hat in Hsent.
Qed.

Lemma copy_many_copies_each_pair_once_witness :
  ∃ st,
    S3BucketClient.copy_many Examples.store_denied Examples.bucket Scenario.source_keys
      Scenario.dest_keys 2 Scenario.one_batch empty_world = Some st
    ∧ at_pc st = Returned
    ∧ calls (w st)
      ≡ₚ [S3.copy_object "bucket" "b/1.txt" ("bucket", "a/1.txt") None None;
          S3.copy_object "bucket" "b/2.txt" ("bucket", "a/2.txt") None None;
          S3.copy_object "bucket" "b/3.txt" ("bucket", "a/3.txt") None None].
Proof.
  assert (∃ st,
    S3BucketClient.copy_many Examples.store_denied Examples.bucket Scenario.source_keys
      Scenario.dest_keys 2 Scenario.one_batch empty_world = Some st
    ∧ at_pc st = Returned) as (st & He & Hat).
  { vm_compute. eexists. split; reflexivity. }
  exists st. split; [exact He|]. split; [exact Hat|].
  destruct (copy_many_copies_each_pair_once Examples.store_denied Examples.bucket
              Scenario.source_keys Scenario.dest_keys 2 empty_world eq_refl eq_refl
              Scenario.one_batch st He) as (_ & _ & H).
  exact (H Hat).
Defined.

(** Property X16.  A batch size that is not positive is not rejected.
    With [batch_size = 0] the computation of [batch_count] raises
    [ZeroDivisionError]; with [batch_size < 0] the range of the loop is empty
    and [_copy_many] returns normally.  In both cases no pool is created,
    nothing is copied and the world stays as it was. *)
Theorem nonpositive_batch_size_copies_nothing {R : Type} (copy_func : string → string → M R)
    (source_keys dest_keys : list string) (max_workers batch_size : Z) (w0 : world) :
  length source_keys = length dest_keys → batch_size ≤ 0 →
  (∀ sched st,
     S3Client._copy_many source_keys dest_keys copy_func max_workers batch_size sched w0
       = Some st →
     futures st = [] ∧ trace st = [] ∧ w st = w0)
  ∧ (batch_size = 0 →
     S3Client._copy_many source_keys dest_keys copy_func max_workers batch_size [Main] w0
     = Some (mkState (Raised (ZeroDivisionError "division by zero")) no_pool [] w0 []))
  ∧ (batch_size < 0 →
     S3Client._copy_many source_keys dest_keys copy_func max_workers batch_size
       [Main; Main] w0
     = Some (mkState Returned no_pool [] w0 [])).
Proof.
  intros Hlen Hb. unfold S3Client._copy_many. split_and!.
  - intros sched st He.
    destruct (EngineFacts.untouched_reachable copy_func (Copy batch_size) source_keys
                dest_keys max_workers w0 sched st) as (_ & _ & ? & ? & ?); [|done|done].
    right. by exists batch_size.
  - intros ->. simpl. unfold main_step. simpl.
    by rewrite bool_decide_eq_false_2 by (by intros ?).
  - intros Hneg. simpl. unfold main_step. simpl.
    rewrite bool_decide_eq_false_2 by (by intros ?).
    rewrite bool_decide_eq_false_2 by lia. simpl.
    by rewrite bool_decide_eq_false_2 by lia.
Qed.

Lemma nonpositive_batch_size_copies_nothing_witness :
  S3Client._copy_many Scenario.source_keys Scenario.dest_keys Scenario.copy_func 2 (-5)
    [Main; Main] empty_world
  = Some (mkState Returned no_pool [] empty_world []).
Proof.
  destruct (nonpositive_batch_size_copies_nothing Scenario.copy_func Scenario.source_keys
              Scenario.dest_keys 2 (-5) empty_world eq_refl ltac:(lia)) as (_ & _ & H).
  apply H. lia.
Defined.

(** Property X17.  With [max_workers <= 0] the constructor of the pool
    raises [ValueError] when the first pool is created: no work is dispatched
    and the world stays as it was.  [_download_many] raises for every pair of
    lists of equal length, [_copy_many] when the lists are not empty; with
    empty lists [_copy_many] creates no pool and returns. *)
Theorem nonpositive_max_workers_raises {R : Type} (func : string → string → M R)
    (keys others : list string) (max_workers batch_size : Z) (w0 : world) :
  length keys = length others → max_workers ≤ 0 → 0 < batch_size →
  let refused :=
    mkState (R:=R) (Raised (ValueError "max_workers must be greater than 0"))
            no_pool [] w0 [] in
  (∀ sched st,
     (S3Client._copy_many keys others func max_workers batch_size sched w0 = Some st
      ∨ S3Client._download_many keys others func max_workers sched w0 = Some st) →
     futures st = [] ∧ trace st = [] ∧ w st = w0)
  ∧ S3Client._download_many keys others func max_workers [Main] w0 = Some refused
  ∧ S3Client._copy_many keys others func max_workers batch_size [Main; Main] w0
    = Some (if bool_decide (keys = []) then mkState Returned no_pool [] w0 []
            else refused).
Proof.
  intros Hlen Hmw Hb refused. unfold S3Client._copy_many, S3Client._download_many.
  split_and!.
  - intros sched st He.
    assert (EngineFacts.untouched w0 st) as (_ & _ & ? & ? & ?); [|done].
    destruct He as [He|He];
      (eapply EngineFacts.untouched_reachable; [by left|exact He]).
  - simpl. unfold main_step, enter_pool. simpl.
    rewrite bool_decide_eq_false_2 by (by intros ?).
    by rewrite bool_decide_eq_true_2.
  - simpl. unfold main_step. simpl.
    rewrite bool_decide_eq_false_2 by (by intros ?).
    rewrite bool_decide_eq_false_2 by lia. simpl. unfold enter_pool, Engine.len.
    destruct keys as [|k keys].
    + rewrite bool_decide_eq_false_2 by (simpl; lia). done.
    + rewrite bool_decide_eq_true_2 by (simpl; lia).
      by rewrite bool_decide_eq_true_2.
Qed.

Lemma nonpositive_max_workers_raises_witness :
  S3Client._download_many Scenario.source_keys Scenario.dest_keys Scenario.raw_download 0
    [Main] empty_world
  = Some (mkState (Raised (ValueError "max_workers must be greater than 0"))
                  no_pool [] empty_world []).
Proof.
  destruct (nonpositive_max_workers_raises Scenario.raw_download Scenario.source_keys
              Scenario.dest_keys 0 1 empty_world eq_refl ltac:(lia) ltac:(lia))
    as (_ & H & _).
  exact H.
Defined.

Lemma copy_object_prints_no_progress (s3 : S3.client) (_bucket : BaseEnum)
    (source_key dest_key : string) (w1 : world) :
  filter (λ line, EngineFacts.is_progress_line line = true)
    (stdout (S3BucketClient.copy_object s3 _bucket source_key dest_key w1).2)
  = filter (λ line, EngineFacts.is_progress_line line = true) (stdout w1).
Proof.
  unfold S3BucketClient.copy_object, S3Client._copy_object, S3Client._get_bucket.
  run_M. by destruct (s3 _ _) as [r|[msg| | |]].
Qed.

(** Property X18.  Through [copy_many] of the bucket client the batch
    size is always the default of 1000, for which the ordinal of the progress
    line is the right one: once the call has returned it has printed, among
    its other lines and in this order, [Finished batch copy k/K] for
    [k = 1, ..., K], where [K = ceil(N / 1000)]. *)
Theorem copy_many_numbers_its_batches (s3 : S3.client) (_bucket : BaseEnum)
    (source_keys dest_keys : list string) (max_workers : Z) (w0 : world) :
  length source_keys = length dest_keys → 0 < max_workers →
  ∀ sched st,
    S3BucketClient.copy_many s3 _bucket source_keys dest_keys max_workers sched w0
      = Some st →
    at_pc st = Returned →
    let K := ceil_div (Z.of_nat (length source_keys)) 1000 in
    filter (λ line, EngineFacts.is_progress_line line = true) (reverse (stdout (w st)))
    = filter (λ line, EngineFacts.is_progress_line line = true) (reverse (stdout w0))
      ++ ((λ k : nat, "Finished batch copy " +:+ pretty (Z.of_nat k + 1) +:+ "/"
                        +:+ pretty K) <$> seq 0 (Z.to_nat K)).
Proof.
  intros Hlen Hmw sched st He Hat K.
  unfold S3BucketClient.copy_many, S3Client._copy_many in He.
  assert (Hbsz : 0 < EngineFacts.batch_len (Copy S3Client.default_batch_size) source_keys)
    by done.
  pose proof (EngineFacts.printed_reachable _ _ _ _ _ Hlen Hmw Hbsz
                (copy_object_prints_no_progress s3 _bucket) _ _ _ He) as Hpr.
  unfold EngineFacts.printed in Hpr. rewrite Hat in Hpr.
  rewrite !filter_reverse, Hpr, reverse_app. f_equal.
  unfold EngineFacts.progress_lines. rewrite <-fmap_reverse, reverse_involutive.
  apply list_fmap_ext. intros _ k _. simpl.
  unfold progress_line, S3Client.default_batch_size. by rewrite Z.div_mul.
Qed.

Lemma copy_many_numbers_its_batches_witness :
  ∃ st,
    S3BucketClient.copy_many Examples.store_denied Examples.bucket Scenario.source_keys
      Scenario.dest_keys 2 Scenario.one_batch empty_world = Some st
    ∧ filter (λ line, EngineFacts.is_progress_line line = true) (reverse (stdout (w st)))
      = ["Finished batch copy 1/1"].
Proof.
  assert (∃ st,
    S3BucketClient.copy_many Examples.store_denied Examples.bucket Scenario.source_keys
      Scenario.dest_keys 2 Scenario.one_batch empty_world = Some st
    ∧ at_pc st = Returned) as (st & He & Hat).
  { vm_compute. eexists. split; reflexivity. }
  exists st. split; [exact He|].
  exact (copy_many_numbers_its_batches Examples.store_denied Examples.bucket
           Scenario.source_keys Scenario.dest_keys 2 empty_world eq_refl eq_refl
           Scenario.one_batch st He Hat).
Defined.
